(** * base_external_referentials/reference.py

    A shallow embedding of the reference registry of the connector
    framework, and the properties of its lookup and registration
    operations.

    Python objects live in a store.  A [Reference] instance is a record
    held in a list, its address is its position, and the constructor
    allocates at the end of the list.  The [parent] attribute is an
    address, so that a registration made on a parent after a child was
    built is seen through the child.  Python [set]s are [gset]s; the
    order in which a [for] loop visits a set is left open: it is a
    parameter [iter], only known to enumerate the elements of the set. *)

From Stdlib Require Import String.
From stdpp Require Import base option list gmap sets.

(** ** Outcomes of a call *)

(** The exceptions the module can raise.  [ValueError] is what the
    source raises for a failed lookup and for a bad construction,
    [KeyError] is what [set.remove] raises (a [LookupError]),
    [AttributeError] is what reading an attribute of [None] raises and
    [UnboundLocalError] what reading a local that was never assigned
    raises. *)
Inductive exn : Set :=
  | ValueError
  | TypeError
  | KeyError
  | AttributeError
  | UnboundLocalError.

(** [Stuck] is no Python behaviour: it marks a dangling address or an
    exhausted recursion budget, neither of which the operations of the
    module produce. *)
Inductive result (A : Type) : Type :=
  | Return (a : A)
  | Raise (e : exn)
  | Stuck.

Arguments Return {A} a.
Arguments Raise {A} e.
Arguments Stuck {A}.

#[global] Instance result_ret : MRet result := fun A a => Return a.

#[global] Instance result_bind : MBind result := fun A B k c =>
  match c with
  | Return a => k a
  | Raise e => Raise e
  | Stuck => Stuck
  end.

(** [LookupError] is the base class of [KeyError] and [IndexError]; of
    the exceptions above only [KeyError] is one. *)
Definition is_LookupError (e : exn) : bool :=
  match e with KeyError => true | _ => false end.

(** ** The data model *)

(** Addresses of [Reference] objects in the store. *)
Abbreviation addr := nat (only parsing).

Section Reference.

(** Classes handed to the registry (mappers, binders, synchronizers,
    backend adapters) are compared and hashed by identity. *)
Context {Cls : Type} `{Cls_countable : Countable Cls}.

(** The arguments of the [match] class methods. *)
Context {Model Direction SynchroType : Type}.

Record Reference : Type := mkReference {
  _service : option string;
  version : option string;
  parent : option addr;
  _mappers : gset Cls;
  _binder : option Cls;
  _synchronizers : gset Cls;
  _backend_adapters : gset Cls
}.

Record ReferenceRegistry : Type := mkReferenceRegistry {
  references : gset addr
}.

(** The interpreter state the module works on: the [Reference]
    instances, the module level registry [REFERENCES], and the
    registries created by callers and passed as [registry=]. *)
Record State : Type := mkState {
  heap : list Reference;
  REFERENCES : ReferenceRegistry;
  registries : list ReferenceRegistry
}.

(** The state right after the module is imported. *)
Definition initial_state : State :=
  mkState [] (mkReferenceRegistry ∅) [].

(** ** The collaborators *)

(** [issubclass(cls, Binder)] and its three siblings, and the [match]
    class methods of the mappers, synchronizers and backend adapters,
    come from modules outside this one.  They are taken to answer with
    a boolean, without raising and without touching the references. *)
Variable issubclass_Binder issubclass_Synchronizer : Cls → bool.
Variable issubclass_Mapper issubclass_BackendAdapter : Cls → bool.
Variable Mapper_match : Cls → Model → Direction → option Model → bool.
Variable Synchronizer_match : Cls → SynchroType → Model → bool.
Variable BackendAdapter_match : Cls → Model → bool.

(** The truth value of a class, [bool(cls)]: [True] unless its
    metaclass says otherwise. *)
Variable class_truth : Cls → bool.

(** The order in which a loop visits a set. *)
Variable iter_cls : gset Cls → list Cls.
Variable iter_ref : gset addr → list addr.

(** ** ReferenceRegistry *)

Definition ReferenceRegistry_init : ReferenceRegistry :=
  mkReferenceRegistry ∅.

Definition register_reference (self : ReferenceRegistry) (reference : addr)
  : ReferenceRegistry :=
  mkReferenceRegistry ({[reference]} ∪ references self).

(** ** Reference: the [service] property, [match], [__str__] *)

(** Truth value of a string or [None]. *)
Definition truthy (s : option string) : bool :=
  match s with
  | Some (String _ _) => true
  | _ => false
  end.

(** [self._service or self.parent.service].  The budget bounds the walk
    up the parent chain. *)
Fixpoint service_fuel (fuel : nat) (h : list Reference) (self : addr)
  : result string :=
  match fuel with
  | 0 => Stuck
  | S fuel' =>
    match h !! self with
    | None => Stuck
    | Some o =>
      match _service o with
      | Some (String a s) => Return (String a s)
      | _ =>
        match parent o with
        | None => Raise AttributeError
        | Some p => service_fuel fuel' h p
        end
      end
    end
  end.

(** A parent exists before its child is built, so its address is the
    smaller one and the address of [self] bounds the length of the
    chain above it. *)
Definition service (h : list Reference) (self : addr) : result string :=
  service_fuel (S self) h self.

Definition match_ (h : list Reference) (self : addr)
    (service_ version_ : option string) : result bool :=
  match h !! self with
  | None => Stuck
  | Some o =>
    s ← service h self;
    Return (bool_decide (Some s = service_) &&
            bool_decide (version o = version_))
  end.

Definition __str__ (h : list Reference) (self : addr) : result string :=
  match h !! self with
  | None => Stuck
  | Some o =>
    match version o with
    | Some (String a v) =>
      s ← service h self;
      Return ("Reference('" ++ s ++ "', '" ++ String a v ++ "')")%string
    | _ =>
      s ← service h self;
      Return ("Reference('" ++ s ++ "')>")%string
    end
  end.

Definition __repr__ (h : list Reference) (self : addr) : result string :=
  match h !! self with
  | None => Stuck
  | Some o =>
    match version o with
    | Some (String a v) =>
      s ← service h self;
      Return ("<Reference '" ++ s ++ "', '" ++ String a v ++ "'>")%string
    | _ =>
      s ← service h self;
      Return ("<Reference '" ++ s ++ "'>")%string
    end
  end.

(** ** Reference: the four lookups *)

(** The three set based lookups are written out as in the source.  The
    loop with [break] keeps the first class the [match] method accepts,
    in the order the set is visited.  The message of the [ValueError]
    is built with [%s] on [self], which runs [__str__] before the
    exception is raised. *)
Fixpoint get_synchronizer_fuel (fuel : nat) (h : list Reference)
    (self : addr) (synchro_type : SynchroType) (model : Model)
  : result (option Cls) :=
  match fuel with
  | 0 => Stuck
  | S fuel' =>
    match h !! self with
    | None => Stuck
    | Some o =>
      let synchronizer :=
        find (λ sync, Synchronizer_match sync synchro_type model)
             (iter_cls (_synchronizers o)) in
      match synchronizer, parent o with
      | None, Some p =>
        synchronizer ← get_synchronizer_fuel fuel' h p synchro_type model;
        match synchronizer with
        | None => _ ← __str__ h self; Raise ValueError
        | Some _ => Return synchronizer
        end
      | _, _ => Return synchronizer
      end
    end
  end.

Fixpoint get_mapper_fuel (fuel : nat) (h : list Reference) (self : addr)
    (model : Model) (direction : Direction) (child_of : option Model)
  : result (option Cls) :=
  match fuel with
  | 0 => Stuck
  | S fuel' =>
    match h !! self with
    | None => Stuck
    | Some o =>
      let mapper :=
        find (λ proc, Mapper_match proc model direction child_of)
             (iter_cls (_mappers o)) in
      match mapper, parent o with
      | None, Some p =>
        mapper ← get_mapper_fuel fuel' h p model direction child_of;
        match mapper with
        | None => _ ← __str__ h self; Raise ValueError
        | Some _ => Return mapper
        end
      | _, _ => Return mapper
      end
    end
  end.

Fixpoint get_backend_adapter_fuel (fuel : nat) (h : list Reference)
    (self : addr) (model : Model) : result (option Cls) :=
  match fuel with
  | 0 => Stuck
  | S fuel' =>
    match h !! self with
    | None => Stuck
    | Some o =>
      let adapter :=
        find (λ proc, BackendAdapter_match proc model)
             (iter_cls (_backend_adapters o)) in
      match adapter, parent o with
      | None, Some p =>
        adapter ← get_backend_adapter_fuel fuel' h p model;
        match adapter with
        | None => _ ← __str__ h self; Raise ValueError
        | Some _ => Return adapter
        end
      | _, _ => Return adapter
      end
    end
  end.

(** The truth value of [self._binder]: [None] is false, a class has the
    truth value of the class. *)
Definition binder_truth (binder : option Cls) : bool :=
  match binder with
  | Some b => class_truth b
  | None => false
  end.

(** In [get_binder] the local [binder] is assigned on two of the three
    paths only: when [self._binder] is false and there is no parent,
    the test [binder is None] reads a local that has no value. *)
Fixpoint get_binder_fuel (fuel : nat) (h : list Reference) (self : addr)
    (model : Model) : result (option Cls) :=
  match fuel with
  | 0 => Stuck
  | S fuel' =>
    match h !! self with
    | None => Stuck
    | Some o =>
      if binder_truth (_binder o) then Return (_binder o)
      else
        match parent o with
        | Some p =>
          binder ← get_binder_fuel fuel' h p model;
          match binder with
          | None => _ ← __str__ h self; Raise ValueError
          | Some _ => Return binder
          end
        | None => Raise UnboundLocalError
        end
    end
  end.

Definition get_synchronizer (h : list Reference) (self : addr)
    (synchro_type : SynchroType) (model : Model) : result (option Cls) :=
  get_synchronizer_fuel (S self) h self synchro_type model.

Definition get_mapper (h : list Reference) (self : addr)
    (model : Model) (direction : Direction) (child_of : option Model)
  : result (option Cls) :=
  get_mapper_fuel (S self) h self model direction child_of.

Definition get_backend_adapter (h : list Reference) (self : addr)
    (model : Model) : result (option Cls) :=
  get_backend_adapter_fuel (S self) h self model.

Definition get_binder (h : list Reference) (self : addr) (model : Model)
  : result (option Cls) :=
  get_binder_fuel (S self) h self model.

(** The shape the three set based lookups share: [sel] picks the set,
    [accepts] is the [match] call with its arguments. *)
Fixpoint resolve_fuel (sel : Reference → gset Cls) (accepts : Cls → bool)
    (fuel : nat) (h : list Reference) (self : addr) : result (option Cls) :=
  match fuel with
  | 0 => Stuck
  | S fuel' =>
    match h !! self with
    | None => Stuck
    | Some o =>
      let found := find accepts (iter_cls (sel o)) in
      match found, parent o with
      | None, Some p =>
        found ← resolve_fuel sel accepts fuel' h p;
        match found with
        | None => _ ← __str__ h self; Raise ValueError
        | Some _ => Return found
        end
      | _, _ => Return found
      end
    end
  end.

Definition resolve (sel : Reference → gset Cls) (accepts : Cls → bool)
    (h : list Reference) (self : addr) : result (option Cls) :=
  resolve_fuel sel accepts (S self) h self.

(** ** Reference: registration *)

Definition set_mappers (o : Reference) (X : gset Cls) : Reference :=
  mkReference (_service o) (version o) (parent o)
              X (_binder o) (_synchronizers o) (_backend_adapters o).

Definition set_binder (o : Reference) (b : option Cls) : Reference :=
  mkReference (_service o) (version o) (parent o)
              (_mappers o) b (_synchronizers o) (_backend_adapters o).

Definition set_synchronizers (o : Reference) (X : gset Cls) : Reference :=
  mkReference (_service o) (version o) (parent o)
              (_mappers o) (_binder o) X (_backend_adapters o).

Definition set_backend_adapters (o : Reference) (X : gset Cls) : Reference :=
  mkReference (_service o) (version o) (parent o)
              (_mappers o) (_binder o) (_synchronizers o) X.

(** Assignment to the object at [self]. *)
Definition store (st : State) (self : addr) (o : Reference) : State :=
  mkState (<[self := o]> (heap st)) (REFERENCES st) (registries st).

Definition register_binder (self : addr) (binder : Cls) (st : State)
  : result State :=
  match heap st !! self with
  | None => Stuck
  | Some o => Return (store st self (set_binder o (Some binder)))
  end.

Definition register_synchronizer (self : addr) (synchronizer : Cls)
    (st : State) : result State :=
  match heap st !! self with
  | None => Stuck
  | Some o =>
    Return (store st self
              (set_synchronizers o ({[synchronizer]} ∪ _synchronizers o)))
  end.

Definition register_mapper (self : addr) (mapper : Cls) (st : State)
  : result State :=
  match heap st !! self with
  | None => Stuck
  | Some o =>
    Return (store st self (set_mappers o ({[mapper]} ∪ _mappers o)))
  end.

Definition register_backend_adapter (self : addr) (adapter : Cls)
    (st : State) : result State :=
  match heap st !! self with
  | None => Stuck
  | Some o =>
    Return (store st self
              (set_backend_adapters o ({[adapter]} ∪ _backend_adapters o)))
  end.

(** [set.remove] raises [KeyError] on an element that is not there. *)
Definition unregister_synchronizer (self : addr) (synchronizer : Cls)
    (st : State) : result State :=
  match heap st !! self with
  | None => Stuck
  | Some o =>
    if decide (synchronizer ∈ _synchronizers o)
    then Return (store st self
                   (set_synchronizers o (_synchronizers o ∖ {[synchronizer]})))
    else Raise KeyError
  end.

Definition unregister_mapper (self : addr) (mapper : Cls) (st : State)
  : result State :=
  match heap st !! self with
  | None => Stuck
  | Some o =>
    if decide (mapper ∈ _mappers o)
    then Return (store st self (set_mappers o (_mappers o ∖ {[mapper]})))
    else Raise KeyError
  end.

Definition unregister_backend_adapter (self : addr) (adapter : Cls)
    (st : State) : result State :=
  match heap st !! self with
  | None => Stuck
  | Some o =>
    if decide (adapter ∈ _backend_adapters o)
    then Return (store st self
                   (set_backend_adapters o (_backend_adapters o ∖ {[adapter]})))
    else Raise KeyError
  end.

(** The decorator.  The message of the [TypeError] is built from
    [self] too. *)
Definition __call__ (self : addr) (cls : Cls) (st : State)
  : result (Cls * State) :=
  if issubclass_Binder cls then
    st' ← register_binder self cls st; Return (cls, st')
  else if issubclass_Synchronizer cls then
    st' ← register_synchronizer self cls st; Return (cls, st')
  else if issubclass_Mapper cls then
    st' ← register_mapper self cls st; Return (cls, st')
  else if issubclass_BackendAdapter cls then
    st' ← register_backend_adapter self cls st; Return (cls, st')
  else
    _ ← __str__ (heap st) self; Raise TypeError.

(** ** Construction and the registry lookup *)

(** The registry named by the [registry=] argument: [None] stands for
    the module level [REFERENCES]. *)
Definition the_registry (st : State) (registry : option nat)
  : option ReferenceRegistry :=
  match registry with
  | None => Some (REFERENCES st)
  | Some i => registries st !! i
  end.

Definition set_registry (st : State) (registry : option nat)
    (R : ReferenceRegistry) (h : list Reference) : State :=
  match registry with
  | None => mkState h R (registries st)
  | Some i => mkState h (REFERENCES st) (<[i := R]> (registries st))
  end.

(** [ReferenceRegistry()], for callers that keep a registry of their
    own. *)
Definition new_registry (st : State) : nat * State :=
  (length (registries st),
   mkState (heap st) (REFERENCES st)
           (registries st ++ [ReferenceRegistry_init])).

(** [Reference(service, version, parent, registry)].  The new object is
    put at the end of the store and its address is handed to the
    registry. *)
Definition Reference_init (service_ version_ : option string)
    (parent_ : option addr) (registry : option nat) (st : State)
  : result (addr * State) :=
  match service_, parent_ with
  | None, None => Raise ValueError
  | _, _ =>
    let self := length (heap st) in
    let o := mkReference service_ version_ parent_ ∅ None ∅ ∅ in
    match the_registry st registry with
    | None => Stuck
    | Some R =>
      Return (self,
              set_registry st registry (register_reference R self)
                           (heap st ++ [o]))
    end
  end.

(** The loop of [ReferenceRegistry.get_reference] over the references in
    the order the set is visited. *)
Fixpoint get_reference_loop (h : list Reference) (l : list addr)
    (service_ version_ : option string) : result addr :=
  match l with
  | [] => Raise ValueError
  | reference :: l' =>
    b ← match_ h reference service_ version_;
    if b : bool then Return reference
    else get_reference_loop h l' service_ version_
  end.

Definition ReferenceRegistry_get_reference (h : list Reference)
    (self : ReferenceRegistry) (service_ version_ : option string)
  : result addr :=
  get_reference_loop h (iter_ref (references self)) service_ version_.

(** The module level [get_reference]. *)
Definition get_reference (st : State) (service_ version_ : option string)
  : result addr :=
  ReferenceRegistry_get_reference (heap st) (REFERENCES st)
                                  service_ version_.

(** ** Scenarios *)

(** [parent = Reference(svc, vp)], [child = Reference(parent=parent,
    version=vc)], then [parent.register_mapper(m)] and finally
    [child.get_mapper(model, direction, child_of)]. *)
Definition fallback_scenario (svc : string) (vp vc : option string)
    (m : Cls) (model : Model) (direction : Direction)
    (child_of : option Model) (st : State) : result (option Cls) :=
  '(parent_, st) ← Reference_init (Some svc) vp None None st;
  '(child, st) ← Reference_init None vc (Some parent_) None st;
  st ← register_mapper parent_ m st;
  get_mapper (heap st) child model direction child_of.

(** The same pair with a mapper on each side; the result is what
    [child.get_mapper] and [parent.get_mapper] answer. *)
Definition shadowing_scenario (svc : string) (vp vc : option string)
    (mp mc : Cls) (model : Model) (direction : Direction)
    (child_of : option Model) (st : State)
  : result (option Cls * option Cls) :=
  '(parent_, st) ← Reference_init (Some svc) vp None None st;
  '(child, st) ← Reference_init None vc (Some parent_) None st;
  st ← register_mapper parent_ mp st;
  st ← register_mapper child mc st;
  from_child ← get_mapper (heap st) child model direction child_of;
  from_parent ← get_mapper (heap st) parent_ model direction child_of;
  Return (from_child, from_parent).

(** ** Predicates used in the statements *)

(** No class of the set [sel] accepts, at [self] and at every reference
    of the chain above it.  A parent has a smaller address than its
    child: it was built first. *)
Inductive exhausted (sel : Reference → gset Cls) (accepts : Cls → bool)
    (h : list Reference) : addr → Prop :=
  | exhausted_root self o :
      h !! self = Some o →
      parent o = None →
      (∀ x, x ∈ sel o → accepts x = false) →
      exhausted sel accepts h self
  | exhausted_child self o p :
      h !! self = Some o →
      parent o = Some p →
      p < self →
      (∀ x, x ∈ sel o → accepts x = false) →
      exhausted sel accepts h p →
      exhausted sel accepts h self.

(** Parents are built before their children. *)
Definition parents_first (h : list Reference) : Prop :=
  ∀ self o p, h !! self = Some o → parent o = Some p → p < self.

(** Every reference of the store has a service, its own or an inherited
    one. *)
Definition services_resolve (h : list Reference) : Prop :=
  ∀ self, self < length h → ∃ s, service h self = Return s.

(** What an operation on [self] leaves alone: the other references, the
    size of the store and the registries. *)
Definition same_elsewhere (self : addr) (st st' : State) : Prop :=
  (∀ other, other ≠ self → heap st' !! other = heap st !! other) ∧
  length (heap st') = length (heap st) ∧
  REFERENCES st' = REFERENCES st ∧
  registries st' = registries st.

(** The walk of a lookup: from [self] up the parent links to [a],
    through references that all [miss]. *)
Inductive climbs (miss : Reference → Prop) (h : list Reference)
  : addr → addr → Prop :=
  | climbs_here a : climbs miss h a a
  | climbs_step self o p a :
      h !! self = Some o →
      miss o →
      parent o = Some p →
      climbs miss h p a →
      climbs miss h self a.

(** The states the operations of the module build: parents come first
    and the registries hold references of the store. *)
Definition well_formed (st : State) : Prop :=
  parents_first (heap st) ∧
  (∀ r, r ∈ references (REFERENCES st) → r < length (heap st)) ∧
  (∀ i R r, registries st !! i = Some R → r ∈ references R →
            r < length (heap st)).

(** [st'] is what one of the operations of [self] that take a class
    made of [st]: a registration, an unregistration or the decorator. *)
Definition registration (self : addr) (c : Cls) (st st' : State) : Prop :=
  register_binder self c st = Return st' ∨
  register_synchronizer self c st = Return st' ∨
  register_mapper self c st = Return st' ∨
  register_backend_adapter self c st = Return st' ∨
  unregister_synchronizer self c st = Return st' ∨
  unregister_mapper self c st = Return st' ∨
  unregister_backend_adapter self c st = Return st' ∨
  __call__ self c st = Return (c, st').

(** * Properties *)

(** A loop over a set visits each element once. *)
Hypothesis iter_cls_elements : ∀ X, iter_cls X ≡ₚ elements X.
Hypothesis iter_ref_elements : ∀ X, iter_ref X ≡ₚ elements X.

(** ** Loops over sets *)

Lemma elem_of_iter_cls (X : gset Cls) (x : Cls) : x ∈ iter_cls X ↔ x ∈ X.
Proof. by rewrite iter_cls_elements, elem_of_elements. Qed.

Lemma elem_of_iter_ref (X : gset addr) (x : addr) : x ∈ iter_ref X ↔ x ∈ X.
Proof. by rewrite iter_ref_elements, elem_of_elements. Qed.

Lemma find_miss {A} (f : A → bool) (l : list A) :
  (∀ x, x ∈ l → f x = false) → find f l = None.
Proof.
  induction l as [|a l IH]; intros Hl; simpl; [done|].
  rewrite (Hl a) by left. apply IH. intros x Hx. apply Hl. by right.
Qed.

Lemma find_only {A} (f : A → bool) (l : list A) (m : A) :
  m ∈ l → f m = true → (∀ x, x ∈ l → f x = true → x = m) →
  find f l = Some m.
Proof.
  induction l as [|a l IH]; intros Hm Hf Hl; [by apply elem_of_nil in Hm|].
  simpl. destruct (f a) eqn:Ha.
  - f_equal. apply Hl; [left | done].
  - apply IH; [| done |].
    + apply elem_of_cons in Hm as [->|Hm]; [congruence | done].
    + intros x Hx. apply Hl. by right.
Qed.

Lemma loop_miss (accepts : Cls → bool) (X : gset Cls) :
  (∀ x, x ∈ X → accepts x = false) → find accepts (iter_cls X) = None.
Proof. intros HX. apply find_miss. intros x Hx. by apply HX, elem_of_iter_cls. Qed.

Lemma loop_only (accepts : Cls → bool) (X : gset Cls) (m : Cls) :
  m ∈ X → accepts m = true → (∀ x, x ∈ X → accepts x = true → x = m) →
  find accepts (iter_cls X) = Some m.
Proof.
  intros Hm Hf HX. apply find_only; [by apply elem_of_iter_cls | done |].
  intros x Hx. by apply HX, elem_of_iter_cls.
Qed.

(** ** The store *)

Lemma store_lookup (st : State) (self : addr) (o o' : Reference) :
  heap st !! self = Some o → heap (store st self o') !! self = Some o'.
Proof. intros Ho. simpl. apply list_lookup_insert_eq. by eapply lookup_lt_Some. Qed.

Lemma store_same_elsewhere (st : State) (self : addr) (o' : Reference) :
  same_elsewhere self st (store st self o').
Proof.
  repeat split; simpl.
  - intros other Hne. by apply list_lookup_insert_ne.
  - apply length_insert.
Qed.

(** ** The budget of the walks *)

(** In a store where parents come first, the walks up the chain never
    use up a budget above the address they start from: the budget
    [S self] of [service] and of the lookups is as good as any larger
    one. *)
Lemma service_fuel_enough (h : list Reference) :
  parents_first h →
  ∀ self fuel fuel', self < fuel → self < fuel' →
    service_fuel fuel h self = service_fuel fuel' h self.
Proof.
  intros Hpf self. induction (lt_wf self) as [self _ IH].
  intros [|fuel] [|fuel'] Hlt Hlt'; try lia. simpl.
  destruct (h !! self) as [o|] eqn:Ho; [|done].
  destruct (parent o) as [p|] eqn:Hp; [|done].
  pose proof (Hpf self o p Ho Hp).
  destruct (_service o) as [[|]|]; try done; apply IH; lia.
Qed.

Lemma resolve_fuel_enough (sel : Reference → gset Cls)
    (accepts : Cls → bool) (h : list Reference) :
  parents_first h →
  ∀ self fuel fuel', self < fuel → self < fuel' →
    resolve_fuel sel accepts fuel h self
    = resolve_fuel sel accepts fuel' h self.
Proof.
  intros Hpf self. induction (lt_wf self) as [self _ IH].
  intros [|fuel] [|fuel'] Hlt Hlt'; try lia. simpl.
  destruct (h !! self) as [o|] eqn:Ho; [|done].
  destruct (find _ _); [done|].
  destruct (parent o) as [p|] eqn:Hp; [|done].
  pose proof (Hpf self o p Ho Hp).
  rewrite (IH p) with (fuel' := fuel'); [done|lia..].
Qed.

Lemma get_binder_fuel_enough (h : list Reference) (model : Model) :
  parents_first h →
  ∀ self fuel fuel', self < fuel → self < fuel' →
    get_binder_fuel fuel h self model = get_binder_fuel fuel' h self model.
Proof.
  intros Hpf self. induction (lt_wf self) as [self _ IH].
  intros [|fuel] [|fuel'] Hlt Hlt'; try lia. simpl.
  destruct (h !! self) as [o|] eqn:Ho; [|done].
  destruct (binder_truth (_binder o)); [done|].
  destruct (parent o) as [p|] eqn:Hp; [|done].
  pose proof (Hpf self o p Ho Hp).
  rewrite (IH p) with (fuel' := fuel'); [done|lia..].
Qed.

(** The constructor and the registrations keep parents first, when the
    parent handed to the constructor is a reference of the store. *)
Lemma parents_first_alloc (h : list Reference) (o : Reference) :
  parents_first h →
  (∀ p, parent o = Some p → p < length h) →
  parents_first (h ++ [o]).
Proof.
  intros Hpf Hnew self o' p Ho' Hp.
  apply lookup_app_Some in Ho' as [Ho'|[Hge Ho']]; [by eapply Hpf|].
  apply list_lookup_singleton_Some in Ho' as [Hself <-].
  specialize (Hnew p Hp). lia.
Qed.

Lemma parents_first_update (h : list Reference) (self : addr)
    (o o' : Reference) :
  parents_first h →
  h !! self = Some o → parent o' = parent o →
  parents_first (<[self := o']> h).
Proof.
  intros Hpf Ho Heq a oa p Ha Hp.
  destruct (decide (a = self)) as [->|Hne].
  - rewrite list_lookup_insert_eq in Ha by by eapply lookup_lt_Some.
    injection Ha as <-. rewrite Heq in Hp. by eapply Hpf.
  - rewrite list_lookup_insert_ne in Ha by done. by eapply Hpf.
Qed.

Lemma Reference_init_parents_first (service_ version_ : option string)
    (parent_ : option addr) (registry : option nat) (st st' : State)
    (self : addr) :
  parents_first (heap st) →
  (∀ p, parent_ = Some p → p < length (heap st)) →
  Reference_init service_ version_ parent_ registry st = Return (self, st') →
  parents_first (heap st').
Proof.
  intros Hpf Hparent. unfold Reference_init.
  destruct (the_registry st registry) as [R|];
    destruct service_, parent_, registry; intros [= <- <-]; simpl;
    by apply parents_first_alloc.
Qed.

(** ** Registration *)

Lemma register_mapper_Return (self : addr) (m : Cls) (st : State)
    (o : Reference) :
  heap st !! self = Some o →
  register_mapper self m st
  = Return (store st self (set_mappers o ({[m]} ∪ _mappers o))).
Proof. intros Ho. unfold register_mapper. by rewrite Ho. Qed.

(** C8. On every reference of the store, [register_mapper(m)] and then
    [unregister_mapper(m)] both succeed and leave a mapper set that does
    not hold [m]; one more [unregister_mapper(m)] raises [KeyError],
    which is a [LookupError]. *)
Theorem register_unregister_mapper (self : addr) (m : Cls) (st : State) :
  is_Some (heap st !! self) →
  ∃ st1 st2 o2,
    register_mapper self m st = Return st1 ∧
    unregister_mapper self m st1 = Return st2 ∧
    heap st2 !! self = Some o2 ∧
    (m ∉ _mappers o2) ∧
    ∃ e, unregister_mapper self m st2 = Raise e ∧ is_LookupError e = true.
Proof.
  intros [o Ho].
  set (o1 := set_mappers o ({[m]} ∪ _mappers o)).
  set (st1 := store st self o1).
  assert (H1 : heap st1 !! self = Some o1) by by eapply store_lookup.
  set (o2 := set_mappers o1 (_mappers o1 ∖ {[m]})).
  set (st2 := store st1 self o2).
  assert (H2 : heap st2 !! self = Some o2) by by eapply store_lookup.
  assert (Hout : m ∉ _mappers o2).
  { simpl. apply not_elem_of_difference. right. by apply elem_of_singleton. }
  exists st1, st2, o2. split_and!; try done.
  - by apply register_mapper_Return.
  - unfold unregister_mapper. rewrite H1.
    rewrite decide_True; [done|].
    simpl. apply elem_of_union. left. by apply elem_of_singleton.
  - exists KeyError. split; [|done].
    unfold unregister_mapper. rewrite H2. by rewrite decide_False.
Qed.

(** C9. On every reference [self] of the store, [register_mapper(c)]
    succeeds, puts [c] in the mapper set of [self] and changes nothing
    else: the binder, the synchronizers, the backend adapters, the
    service, the version and the parent link of [self] are the old ones,
    every other reference (the parent among them) is the old one, and so
    are the registries.  [register_synchronizer] and
    [register_backend_adapter] do the same on their sets. *)
Theorem register_frame (self : addr) (c : Cls) (st : State)
    (o : Reference) :
  heap st !! self = Some o →
  (∃ st' o',
     register_mapper self c st = Return st' ∧
     heap st' !! self = Some o' ∧
     _mappers o' = {[c]} ∪ _mappers o ∧
     _binder o' = _binder o ∧ _synchronizers o' = _synchronizers o ∧
     _backend_adapters o' = _backend_adapters o ∧
     _service o' = _service o ∧ version o' = version o ∧
     parent o' = parent o ∧ same_elsewhere self st st') ∧
  (∃ st' o',
     register_synchronizer self c st = Return st' ∧
     heap st' !! self = Some o' ∧
     _synchronizers o' = {[c]} ∪ _synchronizers o ∧
     _binder o' = _binder o ∧ _mappers o' = _mappers o ∧
     _backend_adapters o' = _backend_adapters o ∧
     _service o' = _service o ∧ version o' = version o ∧
     parent o' = parent o ∧ same_elsewhere self st st') ∧
  (∃ st' o',
     register_backend_adapter self c st = Return st' ∧
     heap st' !! self = Some o' ∧
     _backend_adapters o' = {[c]} ∪ _backend_adapters o ∧
     _binder o' = _binder o ∧ _mappers o' = _mappers o ∧
     _synchronizers o' = _synchronizers o ∧
     _service o' = _service o ∧ version o' = version o ∧
     parent o' = parent o ∧ same_elsewhere self st st').
Proof.
  intros Ho.
  unfold register_mapper, register_synchronizer, register_backend_adapter.
  rewrite Ho.
  split_and!; eexists _, _; (split; [done|]);
    (split; [by eapply store_lookup|]);
    split_and!; try done; apply store_same_elsewhere.
Qed.

(** ** Construction *)

Lemma Reference_init_Return (service_ version_ : option string)
    (parent_ : option addr) (registry : option nat) (st : State)
    (R : ReferenceRegistry) :
  is_Some service_ ∨ is_Some parent_ →
  the_registry st registry = Some R →
  Reference_init service_ version_ parent_ registry st
  = Return (length (heap st),
            set_registry st registry
              (register_reference R (length (heap st)))
              (heap st ++ [mkReference service_ version_ parent_
                                       ∅ None ∅ ∅])).
Proof.
  intros Hsome HR. unfold Reference_init. rewrite HR.
  destruct service_, parent_; try done.
  destruct Hsome as [[? [=]]|[? [=]]].
Qed.

Lemma heap_set_registry (st : State) (registry : option nat)
    (R : ReferenceRegistry) (h : list Reference) :
  heap (set_registry st registry R h) = h.
Proof. by destruct registry. Qed.

Lemma the_registry_set_registry (st : State) (registry : option nat)
    (R0 R : ReferenceRegistry) (h : list Reference) :
  the_registry st registry = Some R0 →
  the_registry (set_registry st registry R h) registry = Some R.
Proof.
  destruct registry as [i|]; simpl; [|done].
  intros Hi. apply list_lookup_insert_eq. by eapply lookup_lt_Some.
Qed.

(** C6. With neither a service nor a parent the constructor raises
    [ValueError]; with a service or a parent (or both) it returns the new
    reference.  The registry handed to the constructor is one of the
    state. *)
Theorem Reference_init_outcome (service_ version_ : option string)
    (parent_ : option addr) (registry : option nat) (st : State) :
  is_Some (the_registry st registry) →
  (service_ = None ∧ parent_ = None →
   Reference_init service_ version_ parent_ registry st = Raise ValueError) ∧
  (is_Some service_ ∨ is_Some parent_ →
   ∃ self st',
     Reference_init service_ version_ parent_ registry st
     = Return (self, st') ∧
     heap st' !! self
     = Some (mkReference service_ version_ parent_ ∅ None ∅ ∅)).
Proof.
  intros [R HR]. split.
  - by intros [-> ->].
  - intros Hsome. eexists _, _. split; [by apply Reference_init_Return|].
    rewrite heap_set_registry. by apply list_lookup_middle.
Qed.

(** ** The lookups, through their common shape *)

Lemma get_synchronizer_fuel_resolve (fuel : nat) (h : list Reference)
    (self : addr) (synchro_type : SynchroType) (model : Model) :
  get_synchronizer_fuel fuel h self synchro_type model
  = resolve_fuel _synchronizers
      (λ sync, Synchronizer_match sync synchro_type model) fuel h self.
Proof.
  revert self. induction fuel as [|fuel IH]; intros self; simpl; [done|].
  destruct (h !! self) as [o|]; [|done].
  destruct (find _ _); [done|]. destruct (parent o); [|done]. by rewrite IH.
Qed.

Lemma get_mapper_fuel_resolve (fuel : nat) (h : list Reference)
    (self : addr) (model : Model) (direction : Direction)
    (child_of : option Model) :
  get_mapper_fuel fuel h self model direction child_of
  = resolve_fuel _mappers
      (λ proc, Mapper_match proc model direction child_of) fuel h self.
Proof.
  revert self. induction fuel as [|fuel IH]; intros self; simpl; [done|].
  destruct (h !! self) as [o|]; [|done].
  destruct (find _ _); [done|]. destruct (parent o); [|done]. by rewrite IH.
Qed.

Lemma get_backend_adapter_fuel_resolve (fuel : nat) (h : list Reference)
    (self : addr) (model : Model) :
  get_backend_adapter_fuel fuel h self model
  = resolve_fuel _backend_adapters
      (λ proc, BackendAdapter_match proc model) fuel h self.
Proof.
  revert self. induction fuel as [|fuel IH]; intros self; simpl; [done|].
  destruct (h !! self) as [o|]; [|done].
  destruct (find _ _); [done|]. destruct (parent o); [|done]. by rewrite IH.
Qed.

Lemma get_synchronizer_resolve (h : list Reference) (self : addr)
    (synchro_type : SynchroType) (model : Model) :
  get_synchronizer h self synchro_type model
  = resolve _synchronizers
      (λ sync, Synchronizer_match sync synchro_type model) h self.
Proof. apply get_synchronizer_fuel_resolve. Qed.

Lemma get_mapper_resolve (h : list Reference) (self : addr)
    (model : Model) (direction : Direction) (child_of : option Model) :
  get_mapper h self model direction child_of
  = resolve _mappers
      (λ proc, Mapper_match proc model direction child_of) h self.
Proof. apply get_mapper_fuel_resolve. Qed.

Lemma get_backend_adapter_resolve (h : list Reference) (self : addr)
    (model : Model) :
  get_backend_adapter h self model
  = resolve _backend_adapters
      (λ proc, BackendAdapter_match proc model) h self.
Proof. apply get_backend_adapter_fuel_resolve. Qed.

Section Resolve.

Variable sel : Reference → gset Cls.
Variable accepts : Cls → bool.

(** A class accepted at the level of [self] is the answer, whatever the
    parent holds. *)
Lemma resolve_local (h : list Reference) (self : addr) (o : Reference)
    (m : Cls) :
  h !! self = Some o →
  m ∈ sel o → accepts m = true →
  (∀ x, x ∈ sel o → accepts x = true → x = m) →
  resolve sel accepts h self = Return (Some m).
Proof.
  intros Ho Hm Hacc Honly. unfold resolve. simpl. rewrite Ho.
  by rewrite (loop_only accepts (sel o) m).
Qed.

(** Without a parent, a miss at the level of [self] is answered with
    [None]. *)
Lemma resolve_root_miss (h : list Reference) (self : addr)
    (o : Reference) :
  h !! self = Some o →
  parent o = None →
  (∀ x, x ∈ sel o → accepts x = false) →
  resolve sel accepts h self = Return None.
Proof.
  intros Ho Hp Hmiss. unfold resolve. simpl. rewrite Ho, Hp.
  by rewrite (loop_miss accepts (sel o)).
Qed.

(** A miss at the level of [self] hands the question to the parent, and
    a class found there is the answer. *)
Lemma resolve_parent (h : list Reference) (self p : addr)
    (o op : Reference) (m : Cls) :
  h !! self = Some o →
  parent o = Some p →
  p < self →
  (∀ x, x ∈ sel o → accepts x = false) →
  h !! p = Some op →
  m ∈ sel op → accepts m = true →
  (∀ x, x ∈ sel op → accepts x = true → x = m) →
  resolve sel accepts h self = Return (Some m).
Proof.
  intros Ho Hp Hlt Hmiss Hop Hm Hacc Honly. unfold resolve.
  destruct self as [|n]; [lia|]. simpl. rewrite Ho, Hp.
  rewrite (loop_miss accepts (sel o)) by done.
  rewrite Hop. by rewrite (loop_only accepts (sel op) m).
Qed.

Lemma __str___Return (h : list Reference) (self : addr) (s : string) :
  is_Some (h !! self) →
  service h self = Return s →
  ∃ t, __str__ h self = Return t.
Proof.
  intros [o Ho] Hs. unfold __str__. rewrite Ho, Hs.
  destruct (version o) as [[|a v]|]; simpl; eauto.
Qed.

Lemma exhausted_lookup (h : list Reference) (self : addr) :
  exhausted sel accepts h self → is_Some (h !! self).
Proof. intros [? o Ho _ _|? o ? Ho _ _ _ _]; by exists o. Qed.

(** The budget: on an exhausted chain any budget above the address of
    [self] gives the same outcome, [None] at a reference without parent
    and [ValueError] below it. *)
Lemma resolve_fuel_exhausted (h : list Reference) (self : addr) :
  services_resolve h →
  exhausted sel accepts h self →
  ∀ fuel o, self < fuel → h !! self = Some o →
    resolve_fuel sel accepts fuel h self
    = match parent o with
      | None => Return None
      | Some _ => Raise ValueError
      end.
Proof.
  intros Hsrv Hex.
  induction Hex as [self o Ho Hp Hmiss|self o p Ho Hp Hlt Hmiss Hex IH];
    intros fuel o' Hfuel Ho'.
  all: assert (o' = o) as -> by congruence.
  all: destruct fuel as [|fuel]; [lia|]; simpl; rewrite Ho, Hp.
  all: rewrite (loop_miss accepts (sel o)) by done.
  { done. }
  destruct (exhausted_lookup h p Hex) as [op Hop].
  rewrite (IH fuel op) by (done || lia).
  destruct (parent op); [done|]. simpl.
  destruct (Hsrv self) as [s Hs]; [by eapply lookup_lt_Some|].
  destruct (__str___Return h self s) as [t Ht]; [by rewrite Ho | done |].
  by rewrite Ht.
Qed.

(** On an exhausted chain a reference with a parent raises
    [ValueError], provided the references have a service to be named
    with in the message. *)
Lemma resolve_exhausted_raises (h : list Reference) (self : addr)
    (o : Reference) :
  services_resolve h →
  exhausted sel accepts h self →
  h !! self = Some o →
  is_Some (parent o) →
  resolve sel accepts h self = Raise ValueError.
Proof.
  intros Hsrv Hex Ho [p Hp]. unfold resolve.
  rewrite (resolve_fuel_exhausted h self Hsrv Hex (S self) o) by (done || lia).
  by rewrite Hp.
Qed.

End Resolve.

(** ** Fallback to the parent and shadowing *)

(** The store after a parent and a child were built on top of [h]. *)
Lemma pair_lookup_parent (h : list Reference) (op oc : Reference) :
  ((h ++ [op]) ++ [oc]) !! length h = Some op.
Proof. rewrite lookup_app_l; [by apply list_lookup_middle|]. rewrite length_app. simpl. lia. Qed.

Lemma pair_lookup_child (h : list Reference) (op oc : Reference) :
  ((h ++ [op]) ++ [oc]) !! S (length h) = Some oc.
Proof.
  apply list_lookup_middle. rewrite length_app. simpl. lia.
Qed.

(** C1. Whatever the state before, build a parent with a service, build
    a child on that parent without a service of its own, and register
    the mapper [m] on the parent only: for every model, direction and
    [child_of] that [m.match] accepts, [child.get_mapper] returns
    [m]. *)
Theorem parent_fallback (svc : string) (vp vc : option string) (m : Cls)
    (model : Model) (direction : Direction) (child_of : option Model)
    (st : State) :
  Mapper_match m model direction child_of = true →
  fallback_scenario svc vp vc m model direction child_of st
  = Return (Some m).
Proof.
  intros Hacc. unfold fallback_scenario.
  rewrite (Reference_init_Return _ _ _ None st (REFERENCES st))
    by (done || left; done).
  simpl. rewrite !length_app. simpl. rewrite !Nat.add_1_r.
  set (p := length (heap st)).
  set (op := mkReference (Some svc) vp None ∅ None ∅ ∅).
  set (oc := mkReference None vc (Some p) ∅ None ∅ ∅).
  set (st2 := mkState _ _ _).
  assert (Hp : heap st2 !! p = Some op) by apply pair_lookup_parent.
  assert (Hc : heap st2 !! S p = Some oc) by apply pair_lookup_child.
  rewrite (register_mapper_Return p m st2 op Hp). simpl.
  rewrite get_mapper_resolve.
  eapply (resolve_parent _ _ _ (S p) p oc).
  - rewrite list_lookup_insert_ne by lia. exact Hc.
  - done.
  - lia.
  - intros x Hx. by apply elem_of_empty in Hx.
  - apply list_lookup_insert_eq. by eapply lookup_lt_Some.
  - simpl. apply elem_of_union. left. by apply elem_of_singleton.
  - done.
  - simpl. intros x Hx _. apply elem_of_union in Hx as [Hx|Hx].
    + by apply elem_of_singleton in Hx.
    + by apply elem_of_empty in Hx.
Qed.

(** C2. On the same pair, with the mapper [mp] registered on the parent
    and the mapper [mc] on the child, both accepting the arguments:
    [child.get_mapper] returns [mc] and [parent.get_mapper] returns
    [mp]. *)
Theorem shadowing (svc : string) (vp vc : option string) (mp mc : Cls)
    (model : Model) (direction : Direction) (child_of : option Model)
    (st : State) :
  Mapper_match mp model direction child_of = true →
  Mapper_match mc model direction child_of = true →
  shadowing_scenario svc vp vc mp mc model direction child_of st
  = Return (Some mc, Some mp).
Proof.
  intros Hmp Hmc. unfold shadowing_scenario.
  rewrite (Reference_init_Return _ _ _ None st (REFERENCES st))
    by (done || left; done).
  simpl. rewrite !length_app. simpl. rewrite !Nat.add_1_r.
  set (p := length (heap st)).
  set (op := mkReference (Some svc) vp None ∅ None ∅ ∅).
  set (oc := mkReference None vc (Some p) ∅ None ∅ ∅).
  set (st2 := mkState _ _ _).
  assert (Hp : heap st2 !! p = Some op) by apply pair_lookup_parent.
  assert (Hc : heap st2 !! S p = Some oc) by apply pair_lookup_child.
  rewrite (register_mapper_Return p mp st2 op Hp). simpl.
  set (op' := set_mappers op _).
  set (st3 := store st2 p op').
  assert (Hc3 : heap st3 !! S p = Some oc).
  { simpl. rewrite list_lookup_insert_ne by lia. exact Hc. }
  rewrite (register_mapper_Return (S p) mc st3 oc Hc3). simpl.
  set (oc' := set_mappers oc _).
  set (st4 := store st3 (S p) oc').
  assert (Hc4 : heap st4 !! S p = Some oc') by by eapply store_lookup.
  assert (Hp4 : heap st4 !! p = Some op').
  { simpl. rewrite list_lookup_insert_ne by lia.
    apply list_lookup_insert_eq. by eapply lookup_lt_Some. }
  assert (Honly : ∀ (x y : Cls), x ∈ ({[y]} ∪ ∅ : gset Cls) → x = y).
  { intros x y [Hx|Hx]%elem_of_union; [by apply elem_of_singleton in Hx|].
    by apply elem_of_empty in Hx. }
  rewrite !get_mapper_resolve.
  rewrite (resolve_local _ _ (heap st4) (S p) oc' mc Hc4).
  - rewrite (resolve_local _ _ (heap st4) p op' mp Hp4); [done| |done|].
    + simpl. apply elem_of_union. left. by apply elem_of_singleton.
    + intros x Hx _. by apply Honly.
  - simpl. apply elem_of_union. left. by apply elem_of_singleton.
  - done.
  - intros x Hx _. by apply Honly.
Qed.

(** ** A miss on the whole chain *)

(** C3. At a reference without parent whose sets hold no class
    accepting the arguments, [get_mapper], [get_synchronizer] and
    [get_backend_adapter] return [None]: the [raise] of each method sits
    under the test [self.parent], and is not reached. *)
Theorem lookup_miss_without_parent (h : list Reference) (self : addr)
    (o : Reference) (synchro_type : SynchroType) (model : Model)
    (direction : Direction) (child_of : option Model) :
  h !! self = Some o →
  parent o = None →
  (∀ x, x ∈ _mappers o → Mapper_match x model direction child_of = false) →
  (∀ x, x ∈ _synchronizers o →
        Synchronizer_match x synchro_type model = false) →
  (∀ x, x ∈ _backend_adapters o → BackendAdapter_match x model = false) →
  get_mapper h self model direction child_of = Return None ∧
  get_synchronizer h self synchro_type model = Return None ∧
  get_backend_adapter h self model = Return None.
Proof.
  intros Ho Hp Hm Hs Ha.
  rewrite get_mapper_resolve, get_synchronizer_resolve,
    get_backend_adapter_resolve.
  split_and!; by eapply resolve_root_miss.
Qed.

(** Below a parent the same miss is a [ValueError], as long as the
    references can be named in the message. *)
Lemma lookup_miss_with_parent (h : list Reference) (self : addr)
    (o : Reference) (synchro_type : SynchroType) (model : Model)
    (direction : Direction) (child_of : option Model) :
  services_resolve h →
  h !! self = Some o →
  is_Some (parent o) →
  (exhausted _mappers
     (λ proc, Mapper_match proc model direction child_of) h self →
   get_mapper h self model direction child_of = Raise ValueError) ∧
  (exhausted _synchronizers
     (λ sync, Synchronizer_match sync synchro_type model) h self →
   get_synchronizer h self synchro_type model = Raise ValueError) ∧
  (exhausted _backend_adapters
     (λ proc, BackendAdapter_match proc model) h self →
   get_backend_adapter h self model = Raise ValueError).
Proof.
  intros Hsrv Ho Hp.
  rewrite get_mapper_resolve, get_synchronizer_resolve,
    get_backend_adapter_resolve.
  split_and!; intros Hex; by eapply resolve_exhausted_raises.
Qed.

(** When the service of [self] cannot be found either, building the
    message fails first and the exception is an [AttributeError]. *)
Lemma resolve_miss_unnamed (sel : Reference → gset Cls)
    (accepts : Cls → bool) (h : list Reference) (self p : addr)
    (o op : Reference) :
  h !! self = Some o → parent o = Some p → p < self →
  h !! p = Some op → parent op = None →
  (∀ x, x ∈ sel o → accepts x = false) →
  (∀ x, x ∈ sel op → accepts x = false) →
  service h self = Raise AttributeError →
  resolve sel accepts h self = Raise AttributeError.
Proof.
  intros Ho Hp Hlt Hop Hpp Hmiss Hmissp Hsrv. unfold resolve.
  destruct self as [|n]; [lia|].
  cbn [resolve_fuel]. rewrite Ho, Hp, Hop, Hpp.
  rewrite (loop_miss accepts (sel o)), (loop_miss accepts (sel op)) by done.
  simpl. unfold __str__. rewrite Ho, Hsrv. by destruct (version o) as [[|]|].
Qed.

(** ** The binder *)

Lemma get_binder_local (h : list Reference) (self : addr) (o : Reference)
    (b : Cls) (model : Model) :
  h !! self = Some o → _binder o = Some b → class_truth b = true →
  get_binder h self model = Return (Some b).
Proof.
  intros Ho Hb Ht. unfold get_binder. simpl. rewrite Ho, Hb. simpl.
  by rewrite Ht.
Qed.

Lemma get_binder_unbound (h : list Reference) (self : addr)
    (o : Reference) (model : Model) :
  h !! self = Some o → binder_truth (_binder o) = false →
  parent o = None →
  get_binder h self model = Raise UnboundLocalError.
Proof. intros Ho Hb Hp. unfold get_binder. simpl. by rewrite Ho, Hb, Hp. Qed.

(** C4, amended. At a reference with neither a binder nor a parent,
    [get_binder(model)] returns nothing, [None] included: it ends with an
    exception, for every model. *)
Theorem get_binder_miss_without_parent (h : list Reference) (self : addr)
    (o : Reference) (model : Model) :
  h !! self = Some o →
  _binder o = None →
  parent o = None →
  ∃ e, get_binder h self model = Raise e.
Proof.
  intros Ho Hb Hp. exists UnboundLocalError.
  eapply get_binder_unbound; [done| |done]. by rewrite Hb.
Qed.

(** ** The service of a reference *)

Lemma service_own (h : list Reference) (self : addr) (o : Reference)
    (s : string) :
  h !! self = Some o → _service o = Some s → s ≠ ""%string →
  service h self = Return s.
Proof.
  intros Ho Hs Hne. unfold service. simpl. rewrite Ho, Hs.
  by destruct s.
Qed.

Lemma service_empty_root (h : list Reference) (self : addr)
    (o : Reference) :
  h !! self = Some o → truthy (_service o) = false → parent o = None →
  service h self = Raise AttributeError.
Proof.
  intros Ho Hs Hp. unfold service. simpl. rewrite Ho, Hp.
  by destruct (_service o) as [[|]|].
Qed.

(** Allocation does not disturb a walk that stayed inside the old
    store. *)
Lemma service_fuel_app (fuel : nat) (h h' : list Reference) (self : addr) :
  service_fuel fuel h self ≠ Stuck →
  service_fuel fuel (h ++ h') self = service_fuel fuel h self.
Proof.
  revert self. induction fuel as [|fuel IH]; intros self; simpl; [done|].
  destruct (h !! self) as [o|] eqn:Ho; [|done].
  rewrite (lookup_app_l_Some _ _ _ _ Ho).
  destruct (_service o) as [[|a s]|]; destruct (parent o); try done;
    apply IH.
Qed.

Lemma match__app (h h' : list Reference) (self : addr)
    (service_ version_ : option string) (b : bool) :
  match_ h self service_ version_ = Return b →
  match_ (h ++ h') self service_ version_ = Return b.
Proof.
  unfold match_, service.
  destruct (h !! self) as [o|] eqn:Ho; [|done].
  rewrite (lookup_app_l_Some _ _ _ _ Ho).
  intros Hm. rewrite service_fuel_app; [done|].
  intros Hstuck. by rewrite Hstuck in Hm.
Qed.

Lemma match__own (h : list Reference) (self : addr) (o : Reference)
    (s : string) :
  h !! self = Some o → _service o = Some s → s ≠ ""%string →
  match_ h self (Some s) (version o) = Return true.
Proof.
  intros Ho Hs Hne. unfold match_.
  rewrite Ho, (service_own h self o s) by done. simpl.
  by rewrite !bool_decide_eq_true_2.
Qed.

Lemma match__empty_root (h : list Reference) (self : addr)
    (o : Reference) (service_ version_ : option string) :
  h !! self = Some o → truthy (_service o) = false → parent o = None →
  match_ h self service_ version_ = Raise AttributeError.
Proof.
  intros Ho Hs Hp. unfold match_.
  by rewrite Ho, (service_empty_root h self o).
Qed.

(** ** The registry lookup *)

Lemma get_reference_loop_found (h : list Reference) (l : list addr)
    (self : addr) (service_ version_ : option string) :
  self ∈ l →
  match_ h self service_ version_ = Return true →
  (∀ other, other ∈ l → other ≠ self →
            match_ h other service_ version_ = Return false) →
  get_reference_loop h l service_ version_ = Return self.
Proof.
  induction l as [|a l IH]; intros Hin Hself Hothers;
    [by apply elem_of_nil in Hin|].
  simpl. destruct (decide (a = self)) as [->|Hne].
  - by rewrite Hself.
  - rewrite (Hothers a) by (done || left). simpl. apply IH; [|done|].
    + apply elem_of_cons in Hin as [->|Hin]; done.
    + intros other Hother. apply Hothers. by right.
Qed.

Lemma get_reference_loop_touch (h : list Reference) (l1 l2 : list addr)
    (self : addr) (service_ version_ : option string) (e : exn) :
  Forall (λ other, match_ h other service_ version_ = Return false) l1 →
  match_ h self service_ version_ = Raise e →
  get_reference_loop h (l1 ++ self :: l2) service_ version_ = Raise e.
Proof.
  intros Hl1 Hself. induction Hl1 as [|a l1 Ha _ IH]; simpl.
  - by rewrite Hself.
  - by rewrite Ha.
Qed.

(** C5, amended. For every non-empty service [s] and every version [v]:
    when each reference already in the registry answers [False] to
    [match(s, v)], building [Reference(service=s, version=v)] against
    that registry succeeds and a lookup of [(s, v)] in the registry
    returns the new reference; with the default registry this is the
    module level [get_reference(s, v)]. *)
Theorem get_reference_after_init (s : string) (v : option string)
    (parent_ : option addr) (registry : option nat) (st : State)
    (R : ReferenceRegistry) :
  s ≠ ""%string →
  the_registry st registry = Some R →
  (∀ other, other ∈ references R →
            match_ (heap st) other (Some s) v = Return false) →
  ∃ self st' R',
    Reference_init (Some s) v parent_ registry st = Return (self, st') ∧
    the_registry st' registry = Some R' ∧
    ReferenceRegistry_get_reference (heap st') R' (Some s) v = Return self ∧
    (registry = None → get_reference st' (Some s) v = Return self).
Proof.
  intros Hne HR Hothers.
  assert (∃ self st' R',
    Reference_init (Some s) v parent_ registry st = Return (self, st') ∧
    the_registry st' registry = Some R' ∧
    ReferenceRegistry_get_reference (heap st') R' (Some s) v = Return self)
    as (self & st' & R' & Hinit & HR' & Hget);
    [|exists self, st', R'; split_and!; try done;
      intros ->; by injection HR' as <-].
  eexists _, _, _. split_and!.
  - apply Reference_init_Return; [by left; eexists | done].
  - by eapply the_registry_set_registry.
  - rewrite heap_set_registry. unfold ReferenceRegistry_get_reference.
    set (self := length (heap st)).
    set (o := mkReference (Some s) v parent_ ∅ None ∅ ∅).
    apply get_reference_loop_found.
    + apply elem_of_iter_ref. simpl. apply elem_of_union. left.
      by apply elem_of_singleton.
    + apply (match__own _ self o s); [by apply list_lookup_middle|done..].
    + intros other Hother Hneq. apply match__app, Hothers.
      apply elem_of_iter_ref in Hother. simpl in Hother.
      apply elem_of_union in Hother as [Hother|Hother]; [|done].
      by apply elem_of_singleton in Hother.
Qed.

(** C10. The constructor accepts the empty string as a service.  The
    reference it returns has no parent, and in every store where it
    still has this service and no parent, reading [service] raises
    [AttributeError], so does [match] on any arguments, and so does a
    registry lookup whose loop reaches the reference. *)
Theorem empty_service_accepted_then_unusable (v : option string)
    (registry : option nat) (st : State) :
  is_Some (the_registry st registry) →
  ∃ self st',
    Reference_init (Some ""%string) v None registry st
    = Return (self, st') ∧
    heap st' !! self
    = Some (mkReference (Some ""%string) v None ∅ None ∅ ∅) ∧
    ∀ h o,
      h !! self = Some o → _service o = Some ""%string → parent o = None →
      service h self = Raise AttributeError ∧
      (∀ service_ version_,
         match_ h self service_ version_ = Raise AttributeError) ∧
      (∀ R service_ version_ l1 l2,
         iter_ref (references R) = l1 ++ self :: l2 →
         Forall (λ other, match_ h other service_ version_ = Return false)
                l1 →
         ReferenceRegistry_get_reference h R service_ version_
         = Raise AttributeError).
Proof.
  intros [R HR]. eexists _, _. split_and!.
  - apply Reference_init_Return; [by left; eexists | done].
  - rewrite heap_set_registry. by apply list_lookup_middle.
  - intros h o Ho Hs Hp.
    assert (Hfalsy : truthy (_service o) = false) by by rewrite Hs.
    split_and!.
    + by eapply service_empty_root.
    + intros. by eapply match__empty_root.
    + intros R0 service_ version_ l1 l2 Hiter Hl1.
      unfold ReferenceRegistry_get_reference. rewrite Hiter.
      apply get_reference_loop_touch; [done|]. by eapply match__empty_root.
Qed.

(** ** The decorator *)

(** C7, amended. On a reference of the store, the decorator applied to a
    subclass of [Binder] registers it as the binder and returns it as
    it is; [get_binder] then returns it for every model when the class
    is true as a value, as a class is unless its metaclass says
    otherwise.  Applied to a class that is a subclass of none of
    [Binder], [Synchronizer], [Mapper] and [BackendAdapter], it raises
    [TypeError] when the reference has a service to be named with in
    the message. *)
Theorem decorator_classification (self : addr) (cls : Cls) (st : State) :
  is_Some (heap st !! self) →
  (issubclass_Binder cls = true →
   ∃ st' o', __call__ self cls st = Return (cls, st') ∧
             heap st' !! self = Some o' ∧ _binder o' = Some cls ∧
             (class_truth cls = true →
              ∀ model : Model,
                get_binder (heap st') self model = Return (Some cls))) ∧
  (issubclass_Binder cls = false →
   issubclass_Synchronizer cls = false →
   issubclass_Mapper cls = false →
   issubclass_BackendAdapter cls = false →
   (∃ s, service (heap st) self = Return s) →
   __call__ self cls st = Raise TypeError).
Proof.
  intros [o Ho]. split.
  - intros Hb. unfold __call__, register_binder. rewrite Hb, Ho. simpl.
    eexists _, _. split; [done|]. split; [by eapply store_lookup|].
    split; [done|]. intros Ht model.
    eapply get_binder_local; [by eapply store_lookup | done..].
  - intros Hb Hs Hm Ha [s Hsrv]. unfold __call__.
    rewrite Hb, Hs, Hm, Ha.
    destruct (__str___Return (heap st) self s) as [t Ht];
      [by rewrite Ho | done |].
    by rewrite Ht.
Qed.

(** * Further properties *)

(** ** The registry *)

Lemma get_reference_loop_miss (h : list Reference) (l : list addr)
    (service_ version_ : option string) :
  (∀ r, r ∈ l → match_ h r service_ version_ = Return false) →
  get_reference_loop h l service_ version_ = Raise ValueError.
Proof.
  induction l as [|a l IH]; intros Hl; simpl; [done|].
  rewrite (Hl a) by left. simpl. apply IH. intros r Hr. apply Hl. by right.
Qed.

(** X1. A lookup in a registry where every reference answers [False] to
    [match] raises [ValueError]; an empty registry is such a one. *)
Theorem get_reference_unmatched (h : list Reference)
    (R : ReferenceRegistry) (service_ version_ : option string) :
  (∀ r, r ∈ references R → match_ h r service_ version_ = Return false) →
  ReferenceRegistry_get_reference h R service_ version_ = Raise ValueError.
Proof.
  intros HR. apply get_reference_loop_miss.
  intros r Hr. by apply HR, elem_of_iter_ref.
Qed.

Lemma match__true (h : list Reference) (self : addr)
    (service_ version_ : option string) :
  match_ h self service_ version_ = Return true →
  ∃ o s, h !! self = Some o ∧ service h self = Return s ∧
         service_ = Some s ∧ version o = version_.
Proof.
  unfold match_. destruct (h !! self) as [o|]; [|done].
  destruct (service h self) as [s| |]; simpl; [|done..].
  intros [= [Hs Hv]%andb_prop].
  apply bool_decide_eq_true_1 in Hs, Hv. by exists o, s.
Qed.

Lemma get_reference_loop_sound (h : list Reference) (l : list addr)
    (service_ version_ : option string) (r : addr) :
  get_reference_loop h l service_ version_ = Return r →
  r ∈ l ∧ match_ h r service_ version_ = Return true.
Proof.
  induction l as [|a l IH]; simpl; [done|].
  destruct (match_ h a service_ version_) as [[|]| |] eqn:Ha; simpl;
    try done.
  - intros [= <-]. split; [left | done].
  - intros [Hr Hm]%IH. split; [by right | done].
Qed.

(** X2. What a registry lookup returns is a reference of that registry
    whose service (its own or an inherited one) and version are the
    ones asked for. *)
Theorem get_reference_sound (h : list Reference) (R : ReferenceRegistry)
    (service_ version_ : option string) (r : addr) :
  ReferenceRegistry_get_reference h R service_ version_ = Return r →
  r ∈ references R ∧
  ∃ o s, h !! r = Some o ∧ service h r = Return s ∧
         service_ = Some s ∧ version o = version_.
Proof.
  intros [Hr Hm]%get_reference_loop_sound. split.
  - by apply elem_of_iter_ref.
  - by apply match__true.
Qed.

(** ** Construction *)

Lemma Reference_init_inv (service_ version_ : option string)
    (parent_ : option addr) (registry : option nat) (st st' : State)
    (self : addr) :
  Reference_init service_ version_ parent_ registry st = Return (self, st') →
  ∃ R, the_registry st registry = Some R ∧
       self = length (heap st) ∧
       st' = set_registry st registry (register_reference R self)
               (heap st ++ [mkReference service_ version_ parent_
                                        ∅ None ∅ ∅]).
Proof.
  unfold Reference_init.
  destruct (the_registry st registry) as [R|];
    destruct service_, parent_; intros [= <- <-]; by exists R.
Qed.

(** X3. A successful construction allocates a fresh address, leaves every
    reference that was there as it was, adds the new reference to the
    registry it was given and leaves the other registries alone. *)
Theorem Reference_init_frame (service_ version_ : option string)
    (parent_ : option addr) (registry : option nat) (st st' : State)
    (self : addr) :
  Reference_init service_ version_ parent_ registry st = Return (self, st') →
  heap st !! self = None ∧
  heap st' !! self
  = Some (mkReference service_ version_ parent_ ∅ None ∅ ∅) ∧
  (∀ a, a ≠ self → heap st' !! a = heap st !! a) ∧
  (∃ R R', the_registry st registry = Some R ∧
           the_registry st' registry = Some R' ∧
           references R' = {[self]} ∪ references R) ∧
  (∀ other, other ≠ registry →
            the_registry st' other = the_registry st other).
Proof.
  intros (R & HR & -> & ->)%Reference_init_inv.
  rewrite heap_set_registry. split_and!.
  - by apply lookup_ge_None_2.
  - by apply list_lookup_middle.
  - intros a Ha. destruct (decide (a < length (heap st))) as [Hlt|Hge].
    + by apply lookup_app_l.
    + rewrite !lookup_ge_None_2; [done|lia|].
      rewrite length_app. simpl. lia.
  - exists R, (register_reference R (length (heap st))).
    split_and!; [done| |done]. by eapply the_registry_set_registry.
  - intros other Hother. destruct registry as [i|], other as [j|];
      simpl; try done.
    apply list_lookup_insert_ne. congruence.
Qed.

(** ** The service property *)

Lemma service_fuel_nonempty (fuel : nat) (h : list Reference)
    (self : addr) (s : string) :
  service_fuel fuel h self = Return s → s ≠ ""%string.
Proof.
  revert self. induction fuel as [|fuel IH]; intros self; simpl; [done|].
  destruct (h !! self) as [o|]; [|done].
  destruct (_service o) as [[|a t]|]; destruct (parent o); try done;
    try apply IH.
  all: by intros [= <-].
Qed.

(** X4. The service a reference answers with is never the empty string. *)
Theorem service_never_empty (h : list Reference) (self : addr)
    (s : string) :
  service h self = Return s → s ≠ ""%string.
Proof. apply service_fuel_nonempty. Qed.

Lemma service_parent (h : list Reference) (self p : addr)
    (o : Reference) :
  parents_first h →
  h !! self = Some o →
  truthy (_service o) = false →
  parent o = Some p →
  service h self = service h p.
Proof.
  intros Hpf Ho Hs Hp. pose proof (Hpf self o p Ho Hp) as Hlt.
  unfold service at 1. simpl. rewrite Ho, Hp.
  destruct (_service o) as [[|a t]|]; try done;
    apply service_fuel_enough; (done || lia).
Qed.

(** X5. A reference whose own service is [None] or empty answers with the
    service of its parent, whatever that answer is. *)
Theorem service_inherited (h : list Reference) (self p : addr)
    (o : Reference) :
  parents_first h →
  h !! self = Some o →
  truthy (_service o) = false →
  parent o = Some p →
  service h self = service h p.
Proof. apply service_parent. Qed.

(** X6. Such a reference prints with the service of its parent, through
    [__str__] and through [__repr__]; an empty version prints like no
    version. *)
Theorem child_prints_parent_service (h : list Reference) (self p : addr)
    (o : Reference) (s : string) :
  parents_first h →
  h !! self = Some o →
  truthy (_service o) = false →
  parent o = Some p →
  service h p = Return s →
  (∀ v, version o = Some v → v ≠ ""%string →
     __str__ h self
     = Return ("Reference('" ++ s ++ "', '" ++ v ++ "')")%string ∧
     __repr__ h self
     = Return ("<Reference '" ++ s ++ "', '" ++ v ++ "'>")%string) ∧
  (truthy (version o) = false →
     __str__ h self = Return ("Reference('" ++ s ++ "')>")%string ∧
     __repr__ h self = Return ("<Reference '" ++ s ++ "'>")%string).
Proof.
  intros Hpf Ho Hs Hp Hsrv.
  assert (Hself : service h self = Return s)
    by by rewrite (service_parent h self p o).
  unfold __str__, __repr__. rewrite Ho, Hself. split.
  - intros v -> Hv. by destruct v.
  - by destruct (version o) as [[|]|].
Qed.

(** ** The binder, at any depth *)

(** X7. [get_binder] answers with the binder of the nearest reference
    whose binder is true as a value, [self] first and then up the
    parent links; a reference without binder, or with a binder that is
    false as a value, is passed over.  When the walk ends on a
    reference without parent that is passed over too, the call raises
    [UnboundLocalError] at that reference, and the references below
    pass it on. *)
Theorem get_binder_nearest (h : list Reference) (self a : addr)
    (oa : Reference) (model : Model) :
  parents_first h →
  climbs (λ o, binder_truth (_binder o) = false) h self a →
  h !! a = Some oa →
  (∀ b, _binder oa = Some b → class_truth b = true →
        get_binder h self model = Return (Some b)) ∧
  (binder_truth (_binder oa) = false → parent oa = None →
   get_binder h self model = Raise UnboundLocalError).
Proof.
  intros Hpf Hc Hoa.
  induction Hc as [a|self o p a Ho Hmiss Hp Hc IH].
  - split; [intros b Hb Ht; by eapply get_binder_local|].
    intros Hb Hp. by eapply get_binder_unbound.
  - pose proof (Hpf self o p Ho Hp) as Hlt.
    assert (Hstep : get_binder h self model
                    = binder ← get_binder h p model;
                      match binder with
                      | None => _ ← __str__ h self; Raise ValueError
                      | Some _ => Return binder
                      end).
    { unfold get_binder. cbn [get_binder_fuel]. rewrite Ho, Hmiss, Hp.
      by rewrite (get_binder_fuel_enough h model Hpf p self (S p))
        by lia. }
    destruct (IH Hoa) as [IHb IHn]. split.
    + intros b Hb Ht. by rewrite Hstep, (IHb b Hb Ht).
    + intros Hb Hroot. by rewrite Hstep, (IHn Hb Hroot).
Qed.

(** X8. In a store where parents come first, [get_binder] either returns a
    binder or raises [UnboundLocalError]: it never returns [None], and
    the [ValueError] written in the method is never raised. *)
Theorem get_binder_outcomes (h : list Reference) (self : addr)
    (model : Model) :
  parents_first h →
  self < length h →
  (∃ b, get_binder h self model = Return (Some b)) ∨
  get_binder h self model = Raise UnboundLocalError.
Proof.
  intros Hpf. induction (lt_wf self) as [self _ IH]. intros Hlt.
  destruct (lookup_lt_is_Some_2 h self Hlt) as [o Ho].
  destruct (binder_truth (_binder o)) eqn:Hb.
  { destruct (_binder o) as [b|] eqn:Hbo; [|done].
    left. exists b. by eapply get_binder_local. }
  destruct (parent o) as [p|] eqn:Hp;
    [|right; by eapply get_binder_unbound].
  pose proof (Hpf self o p Ho Hp) as Hp_lt.
  assert (Hstep : get_binder h self model
                  = binder ← get_binder h p model;
                    match binder with
                    | None => _ ← __str__ h self; Raise ValueError
                    | Some _ => Return binder
                    end).
  { unfold get_binder. cbn [get_binder_fuel]. rewrite Ho, Hb, Hp.
    by rewrite (get_binder_fuel_enough h model Hpf p self (S p)) by lia. }
  rewrite Hstep.
  destruct (IH p Hp_lt) as [[b Hpb]|Hpe]; [lia| |]; rewrite ?Hpb, ?Hpe.
  - left. by exists b.
  - by right.
Qed.

(** ** The set based lookups, at any depth *)

Lemma resolve_step (sel : Reference → gset Cls) (accepts : Cls → bool)
    (h : list Reference) (self p : addr) (o : Reference) :
  parents_first h →
  h !! self = Some o →
  (∀ x, x ∈ sel o → accepts x = false) →
  parent o = Some p →
  resolve sel accepts h self
  = found ← resolve sel accepts h p;
    match found with
    | None => _ ← __str__ h self; Raise ValueError
    | Some _ => Return found
    end.
Proof.
  intros Hpf Ho Hmiss Hp. pose proof (Hpf self o p Ho Hp) as Hlt.
  unfold resolve. cbn [resolve_fuel]. rewrite Ho, Hp.
  rewrite (loop_miss accepts (sel o)) by done.
  by rewrite (resolve_fuel_enough sel accepts h Hpf p self (S p)) by lia.
Qed.

Lemma resolve_nearest (sel : Reference → gset Cls) (accepts : Cls → bool)
    (h : list Reference) (self a : addr) (oa : Reference) (m : Cls) :
  parents_first h →
  climbs (λ o, ∀ x, x ∈ sel o → accepts x = false) h self a →
  h !! a = Some oa →
  m ∈ sel oa → accepts m = true →
  (∀ x, x ∈ sel oa → accepts x = true → x = m) →
  resolve sel accepts h self = Return (Some m).
Proof.
  intros Hpf Hc Hoa Hm Hacc Honly.
  induction Hc as [a|self o p a Ho Hmiss Hp Hc IH].
  - by eapply resolve_local.
  - by rewrite (resolve_step sel accepts h self p o), IH.
Qed.

(** X9. The lookups answer with the class found at the nearest reference
    that has an accepting one, however many parents lie between; the
    classes held further up are not looked at. *)
Theorem lookup_nearest (h : list Reference) (self a : addr)
    (oa : Reference) (m : Cls) (synchro_type : SynchroType)
    (model : Model) (direction : Direction) (child_of : option Model) :
  parents_first h →
  h !! a = Some oa →
  (climbs (λ o, ∀ x, x ∈ _mappers o →
                     Mapper_match x model direction child_of = false)
          h self a →
   m ∈ _mappers oa → Mapper_match m model direction child_of = true →
   (∀ x, x ∈ _mappers oa →
         Mapper_match x model direction child_of = true → x = m) →
   get_mapper h self model direction child_of = Return (Some m)) ∧
  (climbs (λ o, ∀ x, x ∈ _synchronizers o →
                     Synchronizer_match x synchro_type model = false)
          h self a →
   m ∈ _synchronizers oa → Synchronizer_match m synchro_type model = true →
   (∀ x, x ∈ _synchronizers oa →
         Synchronizer_match x synchro_type model = true → x = m) →
   get_synchronizer h self synchro_type model = Return (Some m)) ∧
  (climbs (λ o, ∀ x, x ∈ _backend_adapters o →
                     BackendAdapter_match x model = false)
          h self a →
   m ∈ _backend_adapters oa → BackendAdapter_match m model = true →
   (∀ x, x ∈ _backend_adapters oa →
         BackendAdapter_match x model = true → x = m) →
   get_backend_adapter h self model = Return (Some m)).
Proof.
  intros Hpf Hoa.
  rewrite get_mapper_resolve, get_synchronizer_resolve,
    get_backend_adapter_resolve.
  split_and!; intros Hc Hm Hacc Honly; by eapply resolve_nearest.
Qed.

Lemma resolve_fuel_sound (sel : Reference → gset Cls)
    (accepts : Cls → bool) (fuel : nat) (h : list Reference)
    (self : addr) (m : Cls) :
  resolve_fuel sel accepts fuel h self = Return (Some m) →
  ∃ a oa, climbs (λ o, ∀ x, x ∈ sel o → accepts x = false) h self a ∧
          h !! a = Some oa ∧ m ∈ sel oa ∧ accepts m = true.
Proof.
  revert self. induction fuel as [|fuel IH]; intros self; simpl; [done|].
  destruct (h !! self) as [o|] eqn:Ho; [|done].
  destruct (find accepts (iter_cls (sel o))) as [x|] eqn:Hfind.
  - intros [= ->]. apply find_some in Hfind as [Hin Hacc].
    exists self, o. split_and!; [constructor|done| |done].
    by apply elem_of_iter_cls, list_elem_of_In.
  - destruct (parent o) as [p|] eqn:Hp; [|done].
    destruct (resolve_fuel sel accepts fuel h p) as [[x|]| |] eqn:Hrec;
      simpl; try done.
    + intros [= ->]. destruct (IH p Hrec) as (a & oa & Hc & Hrest).
      exists a, oa. split; [|done]. eapply climbs_step; [done| |done..].
      intros y Hy. eapply find_none; [done|].
      by apply list_elem_of_In, elem_of_iter_cls.
    + by destruct (__str__ h self).
Qed.

(** X10. A class returned by a lookup is registered on [self] or on a
    reference above it, is accepted by its own [match] for the
    arguments of the call, and no class of the references in between
    is. *)
Theorem lookup_sound (h : list Reference) (self : addr) (m : Cls)
    (synchro_type : SynchroType) (model : Model) (direction : Direction)
    (child_of : option Model) :
  (get_mapper h self model direction child_of = Return (Some m) →
   ∃ a oa,
     climbs (λ o, ∀ x, x ∈ _mappers o →
                       Mapper_match x model direction child_of = false)
            h self a ∧
     h !! a = Some oa ∧ m ∈ _mappers oa ∧
     Mapper_match m model direction child_of = true) ∧
  (get_synchronizer h self synchro_type model = Return (Some m) →
   ∃ a oa,
     climbs (λ o, ∀ x, x ∈ _synchronizers o →
                       Synchronizer_match x synchro_type model = false)
            h self a ∧
     h !! a = Some oa ∧ m ∈ _synchronizers oa ∧
     Synchronizer_match m synchro_type model = true) ∧
  (get_backend_adapter h self model = Return (Some m) →
   ∃ a oa,
     climbs (λ o, ∀ x, x ∈ _backend_adapters o →
                       BackendAdapter_match x model = false)
            h self a ∧
     h !! a = Some oa ∧ m ∈ _backend_adapters oa ∧
     BackendAdapter_match m model = true).
Proof.
  rewrite get_mapper_resolve, get_synchronizer_resolve,
    get_backend_adapter_resolve.
  split_and!; intros Hres; by eapply resolve_fuel_sound in Hres.
Qed.

Lemma resolve_None_iff (sel : Reference → gset Cls) (accepts : Cls → bool)
    (h : list Reference) (self : addr) (o : Reference) :
  h !! self = Some o →
  resolve sel accepts h self = Return None ↔
  parent o = None ∧ ∀ x, x ∈ sel o → accepts x = false.
Proof.
  intros Ho. split.
  - unfold resolve. cbn [resolve_fuel]. rewrite Ho.
    destruct (find accepts (iter_cls (sel o))) as [x|] eqn:Hfind; [done|].
    destruct (parent o) as [p|].
    + destruct (resolve_fuel sel accepts self h p) as [[x|]| |];
        simpl; try done. by destruct (__str__ h self).
    + intros _. split; [done|]. intros x Hx. eapply find_none; [done|].
      by apply list_elem_of_In, elem_of_iter_cls.
  - intros [Hp Hmiss]. by eapply resolve_root_miss.
Qed.

(** X11. A lookup returns [None] exactly on a reference that has no parent
    and holds no accepting class: below a parent, a lookup returns a
    class or raises. *)
Theorem lookup_None_iff (h : list Reference) (self : addr) (o : Reference)
    (synchro_type : SynchroType) (model : Model) (direction : Direction)
    (child_of : option Model) :
  h !! self = Some o →
  (get_mapper h self model direction child_of = Return None ↔
   parent o = None ∧
   ∀ x, x ∈ _mappers o →
        Mapper_match x model direction child_of = false) ∧
  (get_synchronizer h self synchro_type model = Return None ↔
   parent o = None ∧
   ∀ x, x ∈ _synchronizers o →
        Synchronizer_match x synchro_type model = false) ∧
  (get_backend_adapter h self model = Return None ↔
   parent o = None ∧
   ∀ x, x ∈ _backend_adapters o → BackendAdapter_match x model = false).
Proof.
  intros Ho.
  rewrite get_mapper_resolve, get_synchronizer_resolve,
    get_backend_adapter_resolve.
  split_and!; by apply resolve_None_iff.
Qed.

(** X13. A miss just below a reference without parent, on a reference whose
    service cannot be found: the message of the [ValueError] cannot be
    built and the three lookups raise [AttributeError] instead. *)
Theorem lookup_miss_unnamed (h : list Reference) (self p : addr)
    (o op : Reference) (synchro_type : SynchroType) (model : Model)
    (direction : Direction) (child_of : option Model) :
  h !! self = Some o → parent o = Some p → p < self →
  h !! p = Some op → parent op = None →
  service h self = Raise AttributeError →
  ((∀ x, x ∈ _mappers o ∪ _mappers op →
         Mapper_match x model direction child_of = false) →
   get_mapper h self model direction child_of = Raise AttributeError) ∧
  ((∀ x, x ∈ _synchronizers o ∪ _synchronizers op →
         Synchronizer_match x synchro_type model = false) →
   get_synchronizer h self synchro_type model = Raise AttributeError) ∧
  ((∀ x, x ∈ _backend_adapters o ∪ _backend_adapters op →
         BackendAdapter_match x model = false) →
   get_backend_adapter h self model = Raise AttributeError).
Proof.
  intros Ho Hp Hlt Hop Hpp Hsrv.
  rewrite get_mapper_resolve, get_synchronizer_resolve,
    get_backend_adapter_resolve.
  split_and!; intros Hmiss;
    (eapply resolve_miss_unnamed; [done..| | |done]);
    intros x Hx; apply Hmiss, elem_of_union; auto.
Qed.

(** ** Registrations as operations on sets *)

Lemma store_store (st : State) (self : addr) (o1 o2 : Reference) :
  store (store st self o1) self o2 = store st self o2.
Proof. unfold store. simpl. by rewrite list_insert_insert_eq. Qed.

Lemma store_id (st : State) (self : addr) (o : Reference) :
  heap st !! self = Some o → store st self o = st.
Proof.
  intros Ho. destruct st as [h R Rs]. unfold store. simpl in *.
  by rewrite list_insert_id.
Qed.

Lemma add_add (c : Cls) (X : gset Cls) : {[c]} ∪ ({[c]} ∪ X) = {[c]} ∪ X.
Proof. by rewrite (assoc_L (∪)), (idemp_L (∪)). Qed.

Lemma add_swap (c1 c2 : Cls) (X : gset Cls) :
  {[c2]} ∪ ({[c1]} ∪ X) = {[c1]} ∪ ({[c2]} ∪ X).
Proof. by rewrite !(assoc_L (∪)), (comm_L (∪) {[c2]}). Qed.

Lemma add_remove (c : Cls) (X : gset Cls) :
  c ∉ X → ({[c]} ∪ X) ∖ {[c]} = X.
Proof.
  intros Hc. apply set_eq. intros x.
  rewrite elem_of_difference, elem_of_union, elem_of_singleton. split.
  - intros [[Heq|Hx] Hne]; [contradiction | done].
  - intros Hx. split; [by right|]. intros ->. contradiction.
Qed.

Lemma remove_add (c : Cls) (X : gset Cls) :
  c ∈ X → {[c]} ∪ X ∖ {[c]} = X.
Proof.
  intros Hc. apply set_eq. intros x.
  rewrite elem_of_union, elem_of_difference, elem_of_singleton. split.
  - intros [->|[Hx _]]; done.
  - intros Hx. destruct (decide (x = c)); [by left | by right].
Qed.

(** X14. Registering a class that is already registered changes nothing, and
    the order of two registrations does not matter: the sets keep no
    trace of it. *)
Theorem register_idempotent_commutative (self : addr) (c1 c2 : Cls)
    (st : State) :
  (register_mapper self c1 st ≫= register_mapper self c1)
  = register_mapper self c1 st ∧
  (register_mapper self c1 st ≫= register_mapper self c2)
  = (register_mapper self c2 st ≫= register_mapper self c1) ∧
  (register_synchronizer self c1 st ≫= register_synchronizer self c1)
  = register_synchronizer self c1 st ∧
  (register_synchronizer self c1 st ≫= register_synchronizer self c2)
  = (register_synchronizer self c2 st ≫= register_synchronizer self c1) ∧
  (register_backend_adapter self c1 st ≫= register_backend_adapter self c1)
  = register_backend_adapter self c1 st ∧
  (register_backend_adapter self c1 st ≫= register_backend_adapter self c2)
  = (register_backend_adapter self c2 st
       ≫= register_backend_adapter self c1).
Proof.
  unfold register_mapper, register_synchronizer, register_backend_adapter.
  destruct (heap st !! self) as [o|] eqn:Ho; [|done]. simpl.
  rewrite !list_lookup_insert_eq by by eapply lookup_lt_Some.
  rewrite !store_store.
  unfold set_mappers, set_synchronizers, set_backend_adapters. simpl.
  rewrite !add_add.
  rewrite (add_swap c1 c2 (_mappers o)),
    (add_swap c1 c2 (_synchronizers o)),
    (add_swap c1 c2 (_backend_adapters o)).
  done.
Qed.

(** X15. Registering a class that was not there and unregistering it gives
    back the state before, and so does unregistering a class that was
    there and registering it again. *)
Theorem register_unregister_restores (self : addr) (c : Cls) (st : State)
    (o : Reference) :
  heap st !! self = Some o →
  (c ∉ _mappers o →
   (register_mapper self c st ≫= unregister_mapper self c) = Return st) ∧
  (c ∈ _mappers o →
   (unregister_mapper self c st ≫= register_mapper self c) = Return st) ∧
  (c ∉ _synchronizers o →
   (register_synchronizer self c st ≫= unregister_synchronizer self c)
   = Return st) ∧
  (c ∈ _synchronizers o →
   (unregister_synchronizer self c st ≫= register_synchronizer self c)
   = Return st) ∧
  (c ∉ _backend_adapters o →
   (register_backend_adapter self c st ≫= unregister_backend_adapter self c)
   = Return st) ∧
  (c ∈ _backend_adapters o →
   (unregister_backend_adapter self c st ≫= register_backend_adapter self c)
   = Return st).
Proof.
  intros Ho. pose proof (lookup_lt_Some _ _ _ Ho) as Hlt.
  unfold register_mapper, unregister_mapper, register_synchronizer,
    unregister_synchronizer, register_backend_adapter,
    unregister_backend_adapter.
  rewrite Ho.
  split_and!; intros Hc; simpl.
  - rewrite list_lookup_insert_eq by done. simpl.
    rewrite decide_True by (apply elem_of_union; left;
                            by apply elem_of_singleton).
    rewrite store_store, add_remove by done.
    f_equal. destruct o. by apply store_id.
  - rewrite decide_True by done. simpl.
    rewrite list_lookup_insert_eq by done. simpl.
    rewrite store_store, remove_add by done.
    f_equal. destruct o. by apply store_id.
  - rewrite list_lookup_insert_eq by done. simpl.
    rewrite decide_True by (apply elem_of_union; left;
                            by apply elem_of_singleton).
    rewrite store_store, add_remove by done.
    f_equal. destruct o. by apply store_id.
  - rewrite decide_True by done. simpl.
    rewrite list_lookup_insert_eq by done. simpl.
    rewrite store_store, remove_add by done.
    f_equal. destruct o. by apply store_id.
  - rewrite list_lookup_insert_eq by done. simpl.
    rewrite decide_True by (apply elem_of_union; left;
                            by apply elem_of_singleton).
    rewrite store_store, add_remove by done.
    f_equal. destruct o. by apply store_id.
  - rewrite decide_True by done. simpl.
    rewrite list_lookup_insert_eq by done. simpl.
    rewrite store_store, remove_add by done.
    f_equal. destruct o. by apply store_id.
Qed.

(** X16. Unregistering a class that is registered removes it from its set
    and changes nothing else; unregistering one that is not raises
    [KeyError].  This holds for the mappers, the synchronizers and the
    backend adapters alike. *)
Theorem unregister_outcome (self : addr) (c : Cls) (st : State)
    (o : Reference) :
  heap st !! self = Some o →
  (c ∈ _mappers o →
   ∃ st' o',
     unregister_mapper self c st = Return st' ∧
     heap st' !! self = Some o' ∧
     _mappers o' = _mappers o ∖ {[c]} ∧
     _binder o' = _binder o ∧ _synchronizers o' = _synchronizers o ∧
     _backend_adapters o' = _backend_adapters o ∧
     _service o' = _service o ∧ version o' = version o ∧
     parent o' = parent o ∧ same_elsewhere self st st') ∧
  (c ∉ _mappers o → unregister_mapper self c st = Raise KeyError) ∧
  (c ∈ _synchronizers o →
   ∃ st' o',
     unregister_synchronizer self c st = Return st' ∧
     heap st' !! self = Some o' ∧
     _synchronizers o' = _synchronizers o ∖ {[c]} ∧
     _binder o' = _binder o ∧ _mappers o' = _mappers o ∧
     _backend_adapters o' = _backend_adapters o ∧
     _service o' = _service o ∧ version o' = version o ∧
     parent o' = parent o ∧ same_elsewhere self st st') ∧
  (c ∉ _synchronizers o →
   unregister_synchronizer self c st = Raise KeyError) ∧
  (c ∈ _backend_adapters o →
   ∃ st' o',
     unregister_backend_adapter self c st = Return st' ∧
     heap st' !! self = Some o' ∧
     _backend_adapters o' = _backend_adapters o ∖ {[c]} ∧
     _binder o' = _binder o ∧ _mappers o' = _mappers o ∧
     _synchronizers o' = _synchronizers o ∧
     _service o' = _service o ∧ version o' = version o ∧
     parent o' = parent o ∧ same_elsewhere self st st') ∧
  (c ∉ _backend_adapters o →
   unregister_backend_adapter self c st = Raise KeyError).
Proof.
  intros Ho.
  unfold unregister_mapper, unregister_synchronizer,
    unregister_backend_adapter.
  rewrite Ho.
  split_and!; intros Hc;
    rewrite ?decide_True by done; rewrite ?decide_False by done;
    try done;
    eexists _, _; (split; [done|]); (split; [by eapply store_lookup|]);
    split_and!; try done; apply store_same_elsewhere.
Qed.

(** ** The binder slot *)

(** X17. [register_binder] replaces the binder: after two registrations the
    state is the one the second alone gives, whatever the first class
    was.  [get_binder] then answers with the second class for every
    model when that class is true as a value; when it is false as a
    value and the reference has no parent, [get_binder] raises
    [UnboundLocalError]. *)
Theorem register_binder_overwrites (self : addr) (b1 b2 : Cls)
    (st : State) (o : Reference) :
  heap st !! self = Some o →
  ∃ st2,
    (register_binder self b1 st ≫= register_binder self b2) = Return st2 ∧
    register_binder self b2 st = Return st2 ∧
    (class_truth b2 = true →
     ∀ model : Model,
       get_binder (heap st2) self model = Return (Some b2)) ∧
    (class_truth b2 = false → parent o = None →
     ∀ model : Model,
       get_binder (heap st2) self model = Raise UnboundLocalError).
Proof.
  intros Ho. pose proof (lookup_lt_Some _ _ _ Ho) as Hlt.
  exists (store st self (set_binder o (Some b2))).
  unfold register_binder. rewrite Ho. simpl.
  rewrite list_lookup_insert_eq by done. rewrite store_store.
  split_and!; try done.
  - intros Ht model.
    eapply get_binder_local; [by eapply store_lookup | done..].
  - intros Ht Hp model.
    eapply get_binder_unbound; [by eapply store_lookup | done..].
Qed.

(** X18. [register_binder] changes the binder of [self] and nothing else. *)
Theorem register_binder_frame (self : addr) (b : Cls) (st : State)
    (o : Reference) :
  heap st !! self = Some o →
  ∃ st' o',
    register_binder self b st = Return st' ∧
    heap st' !! self = Some o' ∧
    _binder o' = Some b ∧
    _mappers o' = _mappers o ∧ _synchronizers o' = _synchronizers o ∧
    _backend_adapters o' = _backend_adapters o ∧
    _service o' = _service o ∧ version o' = version o ∧
    parent o' = parent o ∧ same_elsewhere self st st'.
Proof.
  intros Ho. unfold register_binder. rewrite Ho.
  eexists _, _. split; [done|]. split; [by eapply store_lookup|].
  split_and!; try done. apply store_same_elsewhere.
Qed.

(** ** What the operations leave alone *)

Lemma registration_store (self : addr) (c : Cls) (st st' : State) :
  registration self c st st' →
  ∃ o o', heap st !! self = Some o ∧ st' = store st self o' ∧
          _service o' = _service o ∧ version o' = version o ∧
          parent o' = parent o.
Proof.
  unfold registration, __call__, register_binder, register_synchronizer,
    register_mapper, register_backend_adapter, unregister_synchronizer,
    unregister_mapper, unregister_backend_adapter.
  destruct (heap st !! self) as [o|] eqn:Ho.
  - intros Hop. exists o.
    repeat destruct Hop as [Hop|Hop];
      repeat (case_decide || case_match); simplify_eq/=;
      try (eexists; split_and!; done).
    destruct (__str__ (heap st) self); done.
  - intros Hop.
    repeat destruct Hop as [Hop|Hop];
      repeat case_match; simplify_eq/=.
    destruct (__str__ (heap st) self); done.
Qed.

(** X19. No registration, unregistration or decoration changes the service,
    the version or the parent of the reference it is made on, any other
    reference, the size of the store or a registry. *)
Theorem registration_keeps_identity (self : addr) (c : Cls)
    (st st' : State) :
  registration self c st st' →
  ∃ o o', heap st !! self = Some o ∧ heap st' !! self = Some o' ∧
          _service o' = _service o ∧ version o' = version o ∧
          parent o' = parent o ∧ same_elsewhere self st st'.
Proof.
  intros (o & o' & Ho & -> & Hs & Hv & Hp)%registration_store.
  exists o, o'. split_and!; try done.
  - by eapply store_lookup.
  - apply store_same_elsewhere.
Qed.

(** Walks in two stores [h] and [h'] that, on a set of addresses closed
    under the parent link, hold references with the same service,
    version and parent. *)
Section Walks.

Variables (h h' : list Reference) (P : addr → Prop).
Hypothesis P_closed :
  ∀ a o p, P a → h !! a = Some o → parent o = Some p → P p.
Hypothesis P_None : ∀ a, P a → h !! a = None → h' !! a = None.
Hypothesis P_Some :
  ∀ a o, P a → h !! a = Some o →
    ∃ o', h' !! a = Some o' ∧ _service o' = _service o ∧
          version o' = version o ∧ parent o' = parent o.

Lemma service_fuel_walk (fuel : nat) (r : addr) :
  P r → service_fuel fuel h' r = service_fuel fuel h r.
Proof.
  revert r. induction fuel as [|fuel IH]; intros r Hr; simpl; [done|].
  destruct (h !! r) as [o|] eqn:Ho; [|by rewrite P_None].
  destruct (P_Some r o Hr Ho) as (o' & -> & -> & _ & ->).
  destruct (_service o) as [[|]|]; try done;
    (destruct (parent o) as [p|] eqn:Hp; [|done]); apply IH; by eapply P_closed.
Qed.

Lemma service_walk (r : addr) : P r → service h' r = service h r.
Proof. apply service_fuel_walk. Qed.

Lemma match__walk (r : addr) (service_ version_ : option string) :
  P r → match_ h' r service_ version_ = match_ h r service_ version_.
Proof.
  intros Hr. unfold match_. rewrite service_walk by done.
  destruct (h !! r) as [o|] eqn:Ho; [|by rewrite P_None].
  by destruct (P_Some r o Hr Ho) as (o' & -> & _ & -> & _).
Qed.

Lemma __str___walk (r : addr) : P r → __str__ h' r = __str__ h r.
Proof.
  intros Hr. unfold __str__. rewrite service_walk by done.
  destruct (h !! r) as [o|] eqn:Ho; [|by rewrite P_None].
  by destruct (P_Some r o Hr Ho) as (o' & -> & _ & -> & _).
Qed.

Lemma __repr___walk (r : addr) : P r → __repr__ h' r = __repr__ h r.
Proof.
  intros Hr. unfold __repr__. rewrite service_walk by done.
  destruct (h !! r) as [o|] eqn:Ho; [|by rewrite P_None].
  by destruct (P_Some r o Hr Ho) as (o' & -> & _ & -> & _).
Qed.

Lemma get_reference_loop_walk (l : list addr)
    (service_ version_ : option string) :
  (∀ r, r ∈ l → P r) →
  get_reference_loop h' l service_ version_
  = get_reference_loop h l service_ version_.
Proof.
  induction l as [|a l IH]; intros Hl; simpl; [done|].
  rewrite match__walk by (apply Hl; left).
  rewrite IH; [done|]. intros r Hr. apply Hl. by right.
Qed.

Lemma resolve_fuel_walk (sel : Reference → gset Cls)
    (accepts : Cls → bool) (fuel : nat) (r : addr) :
  (∀ a o o', P a → h !! a = Some o → h' !! a = Some o' → sel o' = sel o) →
  P r →
  resolve_fuel sel accepts fuel h' r = resolve_fuel sel accepts fuel h r.
Proof.
  intros Hsel. revert r.
  induction fuel as [|fuel IH]; intros r Hr; simpl; [done|].
  rewrite __str___walk by done.
  destruct (h !! r) as [o|] eqn:Ho; [|by rewrite P_None].
  destruct (P_Some r o Hr Ho) as (o' & Ho' & _ & _ & Hp).
  rewrite Ho', Hp, (Hsel r o o') by done.
  destruct (find _ _); [done|].
  destruct (parent o) as [p|] eqn:Hpo; [|done].
  rewrite IH; [done|]. by eapply P_closed.
Qed.

Lemma get_binder_fuel_walk (model : Model) (fuel : nat) (r : addr) :
  (∀ a o o', P a → h !! a = Some o → h' !! a = Some o' →
             _binder o' = _binder o) →
  P r →
  get_binder_fuel fuel h' r model = get_binder_fuel fuel h r model.
Proof.
  intros Hb. revert r.
  induction fuel as [|fuel IH]; intros r Hr; simpl; [done|].
  rewrite __str___walk by done.
  destruct (h !! r) as [o|] eqn:Ho; [|by rewrite P_None].
  destruct (P_Some r o Hr Ho) as (o' & Ho' & _ & _ & Hp).
  rewrite Ho', Hp, (Hb r o o') by done.
  destruct (binder_truth (_binder o)); [done|].
  destruct (parent o) as [p|] eqn:Hpo; [|done].
  rewrite IH; [done|]. by eapply P_closed.
Qed.

End Walks.

(** The two uses of the walks: a store where [self] was replaced by a
    reference with the same service, version and parent, and a store
    that differs at [self] only, seen from the references built
    before. *)
Section Update.

Variables (h : list Reference) (self : addr) (o o' : Reference).
Hypothesis Ho : h !! self = Some o.
Hypothesis Hservice : _service o' = _service o.
Hypothesis Hversion : version o' = version o.
Hypothesis Hparent : parent o' = parent o.

Lemma update_None (a : addr) :
  h !! a = None → <[self:=o']> h !! a = None.
Proof.
  intros Ha. rewrite list_lookup_insert_ne; [done|]. congruence.
Qed.

Lemma update_Some (a : addr) (oa : Reference) :
  h !! a = Some oa →
  ∃ oa', <[self:=o']> h !! a = Some oa' ∧ _service oa' = _service oa ∧
         version oa' = version oa ∧ parent oa' = parent oa.
Proof.
  intros Ha. destruct (decide (a = self)) as [->|Hne].
  - exists o'. rewrite list_lookup_insert_eq by by eapply lookup_lt_Some.
    by simplify_eq.
  - exists oa. by rewrite list_lookup_insert_ne.
Qed.

Lemma update_field {A} (f : Reference → A) (a : addr)
    (o1 o2 : Reference) :
  f o' = f o →
  h !! a = Some o1 → <[self:=o']> h !! a = Some o2 → f o2 = f o1.
Proof.
  intros Hf Ha Ha'. destruct (decide (a = self)) as [->|Hne].
  - rewrite list_lookup_insert_eq in Ha' by by eapply lookup_lt_Some.
    by simplify_eq.
  - rewrite list_lookup_insert_ne in Ha' by done. by simplify_eq.
Qed.

Lemma service_update (r : addr) :
  service (<[self:=o']> h) r = service h r.
Proof.
  apply (service_walk h _ (λ _, True)); auto using update_None, update_Some.
Qed.

Lemma get_reference_loop_update (l : list addr)
    (service_ version_ : option string) :
  get_reference_loop (<[self:=o']> h) l service_ version_
  = get_reference_loop h l service_ version_.
Proof.
  apply (get_reference_loop_walk h _ (λ _, True));
    auto using update_None, update_Some.
Qed.

Lemma resolve_update (sel : Reference → gset Cls) (accepts : Cls → bool)
    (r : addr) :
  sel o' = sel o →
  resolve sel accepts (<[self:=o']> h) r = resolve sel accepts h r.
Proof.
  intros Hsel. apply (resolve_fuel_walk h _ (λ _, True));
    auto using update_None, update_Some.
  intros a o1 o2 _. by apply update_field.
Qed.

Lemma get_binder_update (model : Model) (r : addr) :
  _binder o' = _binder o →
  get_binder (<[self:=o']> h) r model = get_binder h r model.
Proof.
  intros Hb. apply (get_binder_fuel_walk h _ (λ _, True));
    auto using update_None, update_Some.
  intros a o1 o2 _. by apply update_field.
Qed.

End Update.

Section Below.

Variables (h h' : list Reference) (self : addr).
Hypothesis Hpf : parents_first h.
Hypothesis Hsame : ∀ a, a ≠ self → h' !! a = h !! a.

Lemma below_closed (a : addr) (o : Reference) (p : addr) :
  a < self → h !! a = Some o → parent o = Some p → p < self.
Proof. intros Ha Ho Hp. pose proof (Hpf a o p Ho Hp). lia. Qed.

Lemma below_None (a : addr) : a < self → h !! a = None → h' !! a = None.
Proof. intros Ha Hn. rewrite Hsame; [done|lia]. Qed.

Lemma below_Some (a : addr) (o : Reference) :
  a < self → h !! a = Some o →
  ∃ o', h' !! a = Some o' ∧ _service o' = _service o ∧
        version o' = version o ∧ parent o' = parent o.
Proof. intros Ha Ho. exists o. rewrite Hsame; [done|lia]. Qed.

Lemma below_field {A} (f : Reference → A) (a : addr) (o1 o2 : Reference) :
  a < self → h !! a = Some o1 → h' !! a = Some o2 → f o2 = f o1.
Proof.
  intros Ha H1 H2. rewrite Hsame in H2 by lia. by simplify_eq.
Qed.

Lemma service_below (r : addr) : r < self → service h' r = service h r.
Proof.
  apply (service_walk h h' (λ a, a < self));
    eauto using below_closed, below_None, below_Some.
Qed.

Lemma match__below (r : addr) (service_ version_ : option string) :
  r < self → match_ h' r service_ version_ = match_ h r service_ version_.
Proof.
  apply (match__walk h h' (λ a, a < self));
    eauto using below_closed, below_None, below_Some.
Qed.

Lemma get_reference_loop_below (l : list addr)
    (service_ version_ : option string) :
  (∀ r, r ∈ l → r < self) →
  get_reference_loop h' l service_ version_
  = get_reference_loop h l service_ version_.
Proof.
  apply (get_reference_loop_walk h h' (λ a, a < self));
    eauto using below_closed, below_None, below_Some.
Qed.

Lemma resolve_below (sel : Reference → gset Cls) (accepts : Cls → bool)
    (r : addr) :
  r < self → resolve sel accepts h' r = resolve sel accepts h r.
Proof.
  apply (resolve_fuel_walk h h' (λ a, a < self));
    eauto using below_closed, below_None, below_Some, below_field.
Qed.

Lemma get_binder_below (model : Model) (r : addr) :
  r < self → get_binder h' r model = get_binder h r model.
Proof.
  apply (get_binder_fuel_walk h h' (λ a, a < self));
    eauto using below_closed, below_None, below_Some, below_field.
Qed.

End Below.

(** ** Operations that do not disturb each other *)

(** X20. The service of every reference, and with it what a registry lookup
    answers, is the same before and after a registration, an
    unregistration or a decoration. *)
Theorem registration_keeps_services (self : addr) (c : Cls)
    (st st' : State) :
  registration self c st st' →
  (∀ r, service (heap st') r = service (heap st) r) ∧
  (∀ R service_ version_,
     ReferenceRegistry_get_reference (heap st') R service_ version_
     = ReferenceRegistry_get_reference (heap st) R service_ version_).
Proof.
  intros (o & o' & Ho & -> & Hs & Hv & Hp)%registration_store. split.
  - intros r. by eapply service_update.
  - intros R service_ version_. by eapply get_reference_loop_update.
Qed.

(** X21. The four kinds do not interfere: registering or unregistering a
    class of one kind on any reference changes no lookup of the other
    kinds, on any reference. *)
Theorem registration_independent (self : addr) (c : Cls) (st st' : State)
    (r : addr) (synchro_type : SynchroType) (model : Model)
    (direction : Direction) (child_of : option Model) :
  (register_mapper self c st = Return st' ∨
   unregister_mapper self c st = Return st' →
   get_synchronizer (heap st') r synchro_type model
   = get_synchronizer (heap st) r synchro_type model ∧
   get_backend_adapter (heap st') r model
   = get_backend_adapter (heap st) r model ∧
   get_binder (heap st') r model = get_binder (heap st) r model) ∧
  (register_synchronizer self c st = Return st' ∨
   unregister_synchronizer self c st = Return st' →
   get_mapper (heap st') r model direction child_of
   = get_mapper (heap st) r model direction child_of ∧
   get_backend_adapter (heap st') r model
   = get_backend_adapter (heap st) r model ∧
   get_binder (heap st') r model = get_binder (heap st) r model) ∧
  (register_backend_adapter self c st = Return st' ∨
   unregister_backend_adapter self c st = Return st' →
   get_mapper (heap st') r model direction child_of
   = get_mapper (heap st) r model direction child_of ∧
   get_synchronizer (heap st') r synchro_type model
   = get_synchronizer (heap st) r synchro_type model ∧
   get_binder (heap st') r model = get_binder (heap st) r model) ∧
  (register_binder self c st = Return st' →
   get_mapper (heap st') r model direction child_of
   = get_mapper (heap st) r model direction child_of ∧
   get_synchronizer (heap st') r synchro_type model
   = get_synchronizer (heap st) r synchro_type model ∧
   get_backend_adapter (heap st') r model
   = get_backend_adapter (heap st) r model).
Proof.
  rewrite !get_mapper_resolve, !get_synchronizer_resolve,
    !get_backend_adapter_resolve.
  unfold register_binder, register_synchronizer, register_mapper,
    register_backend_adapter, unregister_synchronizer, unregister_mapper,
    unregister_backend_adapter.
  destruct (heap st !! self) as [o|] eqn:Ho;
    [|split_and!; [intros [|]..|]; done].
  split_and!; [intros [Hop|Hop]..|intros Hop];
    repeat case_decide; simplify_eq/=;
    split_and!;
    (eapply resolve_update; done) || (eapply get_binder_update; done).
Qed.

(** X22. A registration, an unregistration or a decoration made on a
    reference changes no lookup on the references built before it, its
    parent and the references above among them. *)
Theorem registration_invisible_to_earlier (self : addr) (c : Cls)
    (st st' : State) (r : addr) (synchro_type : SynchroType)
    (model : Model) (direction : Direction) (child_of : option Model) :
  parents_first (heap st) →
  registration self c st st' →
  r < self →
  get_mapper (heap st') r model direction child_of
  = get_mapper (heap st) r model direction child_of ∧
  get_synchronizer (heap st') r synchro_type model
  = get_synchronizer (heap st) r synchro_type model ∧
  get_backend_adapter (heap st') r model
  = get_backend_adapter (heap st) r model ∧
  get_binder (heap st') r model = get_binder (heap st) r model.
Proof.
  intros Hpf (o & o' & Ho & -> & _)%registration_store Hr.
  rewrite !get_mapper_resolve, !get_synchronizer_resolve,
    !get_backend_adapter_resolve.
  assert (Hsame : ∀ a, a ≠ self →
            heap (store st self o') !! a = heap st !! a).
  { intros a Ha. simpl. by apply list_lookup_insert_ne. }
  split_and!;
    (eapply resolve_below; done) || (eapply get_binder_below; done).
Qed.

Lemma alloc_same (h : list Reference) (o : Reference) (a : addr) :
  a ≠ length h → (h ++ [o]) !! a = h !! a.
Proof.
  intros Ha. destruct (decide (a < length h)) as [Hlt|Hge].
  - by apply lookup_app_l.
  - rewrite !lookup_ge_None_2; [done|lia|].
    rewrite length_app. simpl. lia.
Qed.

(** X23. Building a reference changes nothing for the references that are
    there: their service and their four lookups answer as before. *)
Theorem construction_preserves_lookups (service_ version_ : option string)
    (parent_ : option addr) (registry : option nat) (st st' : State)
    (self r : addr) (synchro_type : SynchroType) (model : Model)
    (direction : Direction) (child_of : option Model) :
  parents_first (heap st) →
  Reference_init service_ version_ parent_ registry st = Return (self, st') →
  r < self →
  service (heap st') r = service (heap st) r ∧
  get_mapper (heap st') r model direction child_of
  = get_mapper (heap st) r model direction child_of ∧
  get_synchronizer (heap st') r synchro_type model
  = get_synchronizer (heap st) r synchro_type model ∧
  get_backend_adapter (heap st') r model
  = get_backend_adapter (heap st) r model ∧
  get_binder (heap st') r model = get_binder (heap st) r model.
Proof.
  intros Hpf (R & HR & -> & ->)%Reference_init_inv Hr.
  rewrite heap_set_registry.
  rewrite !get_mapper_resolve, !get_synchronizer_resolve,
    !get_backend_adapter_resolve.
  pose proof (alloc_same (heap st)
                (mkReference service_ version_ parent_ ∅ None ∅ ∅)) as Hsame.
  split_and!;
    (eapply service_below; done) || (eapply resolve_below; done) ||
    (eapply get_binder_below; done).
Qed.

(** ** The states the module builds *)

Lemma well_formed_store (st : State) (self : addr) (o o' : Reference) :
  well_formed st →
  heap st !! self = Some o → parent o' = parent o →
  well_formed (store st self o').
Proof.
  intros (Hpf & HR & HRs) Ho Hp. split_and!; simpl.
  - by eapply parents_first_update.
  - intros r Hr. rewrite length_insert. by apply HR.
  - intros i R r Hi Hr. rewrite length_insert. by eapply HRs.
Qed.

Lemma well_formed_alloc (st : State) (registry : option nat)
    (R : ReferenceRegistry) (o : Reference) :
  well_formed st →
  (∀ p, parent o = Some p → p < length (heap st)) →
  the_registry st registry = Some R →
  well_formed (set_registry st registry
                 (register_reference R (length (heap st)))
                 (heap st ++ [o])).
Proof.
  intros (Hpf & HR & HRs) Hp Hreg.
  assert (Hnew : ∀ R0 r,
            (∀ r, r ∈ references R0 → r < length (heap st)) →
            r ∈ references (register_reference R0 (length (heap st))) →
            r < length (heap st ++ [o])).
  { intros R0 r HR0 Hr. rewrite length_app. simpl in *.
    apply elem_of_union in Hr as [Hr|Hr].
    - apply elem_of_singleton in Hr. lia.
    - specialize (HR0 r Hr). lia. }
  destruct registry as [i|]; simpl in *.
  - split_and!; simpl.
    + by apply parents_first_alloc.
    + intros r Hr. rewrite length_app. specialize (HR r Hr). lia.
    + intros j Rj r Hj Hr. destruct (decide (j = i)) as [->|Hne].
      * rewrite list_lookup_insert_eq in Hj by by eapply lookup_lt_Some.
        injection Hj as <-. apply (Hnew R); [|done].
        intros r' Hr'. by eapply HRs.
      * rewrite list_lookup_insert_ne in Hj by done.
        rewrite length_app. specialize (HRs j Rj r Hj Hr). lia.
  - injection Hreg as <-. split_and!; simpl.
    + by apply parents_first_alloc.
    + intros r Hr. by apply (Hnew (REFERENCES st)).
    + intros j Rj r Hj Hr. rewrite length_app.
      specialize (HRs j Rj r Hj Hr). lia.
Qed.

(** X24. Parents come before their children and the registries hold
    references of the store: this is so when the module is imported,
    and the constructor (handed a parent that exists), the
    registrations, the unregistrations, the decorator and the creation
    of a registry keep it so. *)
Theorem well_formed_invariant :
  well_formed initial_state ∧
  ∀ st, well_formed st →
    (∀ service_ version_ parent_ registry self st',
       (∀ p, parent_ = Some p → p < length (heap st)) →
       Reference_init service_ version_ parent_ registry st
       = Return (self, st') →
       well_formed st') ∧
    (∀ self c st', registration self c st st' → well_formed st') ∧
    well_formed (new_registry st).2.
Proof.
  split.
  - split_and!; simpl.
    + intros self o p Ho. by rewrite lookup_nil in Ho.
    + intros r Hr. by apply elem_of_empty in Hr.
    + intros i R r Hi. by rewrite lookup_nil in Hi.
  - intros st Hwf. split_and!.
    + intros service_ version_ parent_ registry self st' Hp
        (R & HR & -> & ->)%Reference_init_inv.
      by apply well_formed_alloc.
    + intros self c st' (o & o' & Ho & -> & _ & _ & Hp)%registration_store.
      by eapply well_formed_store.
    + destruct Hwf as (Hpf & HR & HRs). split_and!; simpl; [done..|].
      intros i R r Hi Hr.
      apply lookup_app_Some in Hi as [Hi|[_ Hi]]; [by eapply HRs|].
      apply list_lookup_singleton_Some in Hi as [_ <-].
      by apply elem_of_empty in Hr.
Qed.

(** ** The walks end *)

Lemma service_fuel_ends (h : list Reference) :
  parents_first h →
  ∀ fuel self, self < length h → self < fuel →
    service_fuel fuel h self ≠ Stuck.
Proof.
  intros Hpf. induction fuel as [|fuel IH]; intros self Hlt Hfuel; [lia|].
  simpl. destruct (lookup_lt_is_Some_2 h self Hlt) as [o Ho]. rewrite Ho.
  destruct (parent o) as [p|] eqn:Hp;
    [pose proof (Hpf self o p Ho Hp)|];
    destruct (_service o) as [[|]|]; try done; apply IH; lia.
Qed.

Lemma __str___ends (h : list Reference) (self : addr) :
  parents_first h → self < length h → __str__ h self ≠ Stuck.
Proof.
  intros Hpf Hlt. unfold __str__.
  destruct (lookup_lt_is_Some_2 h self Hlt) as [o ->].
  pose proof (service_fuel_ends h Hpf (S self) self Hlt) as Hs.
  unfold service.
  destruct (service_fuel (S self) h self);
    [|by destruct (version o) as [[|]|]|exfalso; apply Hs; [lia|done]].
  by destruct (version o) as [[|]|].
Qed.

Lemma resolve_fuel_ends (sel : Reference → gset Cls)
    (accepts : Cls → bool) (h : list Reference) :
  parents_first h →
  ∀ fuel self, self < length h → self < fuel →
    resolve_fuel sel accepts fuel h self ≠ Stuck.
Proof.
  intros Hpf. induction fuel as [|fuel IH]; intros self Hlt Hfuel; [lia|].
  simpl. destruct (lookup_lt_is_Some_2 h self Hlt) as [o Ho]. rewrite Ho.
  destruct (find _ _); [done|].
  destruct (parent o) as [p|] eqn:Hp; [|done].
  pose proof (Hpf self o p Ho Hp).
  pose proof (IH p) as IHp.
  destruct (resolve_fuel sel accepts fuel h p) as [[x|]| |];
    simpl; try done; [|apply IHp; lia].
  pose proof (__str___ends h self Hpf Hlt).
  by destruct (__str__ h self).
Qed.

Lemma get_binder_fuel_ends (model : Model) (h : list Reference) :
  parents_first h →
  ∀ fuel self, self < length h → self < fuel →
    get_binder_fuel fuel h self model ≠ Stuck.
Proof.
  intros Hpf. induction fuel as [|fuel IH]; intros self Hlt Hfuel; [lia|].
  simpl. destruct (lookup_lt_is_Some_2 h self Hlt) as [o Ho]. rewrite Ho.
  destruct (binder_truth (_binder o));
    [by destruct (_binder o)|].
  destruct (parent o) as [p|] eqn:Hp; [|done].
  pose proof (Hpf self o p Ho Hp).
  pose proof (IH p) as IHp.
  destruct (get_binder_fuel fuel h p model) as [[x|]| |];
    simpl; try done; [|apply IHp; lia].
  pose proof (__str___ends h self Hpf Hlt).
  by destruct (__str__ h self).
Qed.

Lemma match__ends (h : list Reference) (self : addr)
    (service_ version_ : option string) :
  parents_first h → self < length h →
  match_ h self service_ version_ ≠ Stuck.
Proof.
  intros Hpf Hlt. unfold match_.
  destruct (lookup_lt_is_Some_2 h self Hlt) as [o ->].
  pose proof (service_fuel_ends h Hpf (S self) self Hlt) as Hs.
  unfold service.
  destruct (service_fuel (S self) h self);
    [done..|exfalso; apply Hs; [lia|done]].
Qed.

Lemma get_reference_loop_ends (h : list Reference) (l : list addr)
    (service_ version_ : option string) :
  parents_first h → (∀ r, r ∈ l → r < length h) →
  get_reference_loop h l service_ version_ ≠ Stuck.
Proof.
  intros Hpf. induction l as [|a l IH]; intros Hl; simpl; [done|].
  pose proof (match__ends h a service_ version_ Hpf) as Ha.
  destruct (match_ h a service_ version_) as [[|]| |]; simpl; try done.
  - apply IH. intros r Hr. apply Hl. by right.
  - exfalso. apply Ha; [|done]. apply Hl. by left.
Qed.

(** X25. In a well-formed state every call ends with a value or with a
    Python exception: the parent links have no cycle, and the walk from
    a reference takes no more steps than its address allows. *)
Theorem calls_end (st : State) :
  well_formed st →
  (∀ self, self < length (heap st) →
     service (heap st) self ≠ Stuck ∧
     __str__ (heap st) self ≠ Stuck ∧
     (∀ service_ version_,
        match_ (heap st) self service_ version_ ≠ Stuck) ∧
     (∀ (synchro_type : SynchroType) (model : Model)
        (direction : Direction) (child_of : option Model),
        get_mapper (heap st) self model direction child_of ≠ Stuck ∧
        get_synchronizer (heap st) self synchro_type model ≠ Stuck ∧
        get_backend_adapter (heap st) self model ≠ Stuck ∧
        get_binder (heap st) self model ≠ Stuck)) ∧
  (∀ registry R service_ version_,
     the_registry st registry = Some R →
     ReferenceRegistry_get_reference (heap st) R service_ version_
     ≠ Stuck).
Proof.
  intros (Hpf & HR & HRs). split.
  - intros self Hlt. split_and!.
    + apply service_fuel_ends; (done || lia).
    + by apply __str___ends.
    + intros. by apply match__ends.
    + intros. rewrite get_mapper_resolve, get_synchronizer_resolve,
        get_backend_adapter_resolve.
      split_and!;
        (apply resolve_fuel_ends; (done || lia)) ||
        (apply get_binder_fuel_ends; (done || lia)).
  - intros registry R service_ version_ Hreg.
    apply get_reference_loop_ends; [done|].
    intros r Hr%elem_of_iter_ref.
    destruct registry as [i|]; simpl in Hreg.
    + by eapply HRs.
    + injection Hreg as <-. by apply HR.
Qed.

(** ** Registries side by side *)

(** X26. Building a reference against one registry leaves every other
    registry as it was, and the lookups in it answer as before. *)
Theorem construction_isolated (service_ version_ : option string)
    (parent_ : option addr) (registry : option nat) (st st' : State)
    (self : addr) (other : option nat) (R : ReferenceRegistry) :
  well_formed st →
  Reference_init service_ version_ parent_ registry st = Return (self, st') →
  other ≠ registry →
  the_registry st other = Some R →
  the_registry st' other = Some R ∧
  ∀ service' version',
    ReferenceRegistry_get_reference (heap st') R service' version'
    = ReferenceRegistry_get_reference (heap st) R service' version'.
Proof.
  intros (Hpf & HR & HRs) (R0 & HR0 & -> & ->)%Reference_init_inv
    Hother Hreg.
  rewrite heap_set_registry. split.
  - rewrite <- Hreg. destruct registry as [i|], other as [j|];
      simpl; try done.
    apply list_lookup_insert_ne. congruence.
  - intros service' version'. unfold ReferenceRegistry_get_reference.
    eapply get_reference_loop_below; [done|by apply alloc_same|].
    intros r Hr%elem_of_iter_ref.
    destruct other as [j|]; simpl in Hreg.
    + by eapply HRs.
    + injection Hreg as <-. by apply HR.
Qed.

(** ** The decorator and the lookups *)

Lemma only_after_add (accepts : Cls → bool) (cls : Cls) (X : gset Cls) :
  (∀ x, x ∈ X → accepts x = true → x = cls) →
  ∀ x, x ∈ {[cls]} ∪ X → accepts x = true → x = cls.
Proof.
  intros HX x [Hx|Hx]%elem_of_union Hacc; [|by apply HX].
  by apply elem_of_singleton in Hx.
Qed.

(** X27. A class put on a reference with the decorator is what the lookup of
    its kind returns from that reference, for the arguments its [match]
    accepts, when no other class registered there accepts them.  The
    kind is the first of [Binder], [Synchronizer], [Mapper] and
    [BackendAdapter] the class is a subclass of. *)
Theorem decorator_then_lookup (self : addr) (cls : Cls) (st : State)
    (o : Reference) (synchro_type : SynchroType) (model : Model)
    (direction : Direction) (child_of : option Model) :
  heap st !! self = Some o →
  issubclass_Binder cls = false →
  (issubclass_Synchronizer cls = true →
   Synchronizer_match cls synchro_type model = true →
   (∀ x, x ∈ _synchronizers o →
         Synchronizer_match x synchro_type model = true → x = cls) →
   ∃ st', __call__ self cls st = Return (cls, st') ∧
          get_synchronizer (heap st') self synchro_type model
          = Return (Some cls)) ∧
  (issubclass_Synchronizer cls = false →
   issubclass_Mapper cls = true →
   Mapper_match cls model direction child_of = true →
   (∀ x, x ∈ _mappers o →
         Mapper_match x model direction child_of = true → x = cls) →
   ∃ st', __call__ self cls st = Return (cls, st') ∧
          get_mapper (heap st') self model direction child_of
          = Return (Some cls)) ∧
  (issubclass_Synchronizer cls = false →
   issubclass_Mapper cls = false →
   issubclass_BackendAdapter cls = true →
   BackendAdapter_match cls model = true →
   (∀ x, x ∈ _backend_adapters o →
         BackendAdapter_match x model = true → x = cls) →
   ∃ st', __call__ self cls st = Return (cls, st') ∧
          get_backend_adapter (heap st') self model = Return (Some cls)).
Proof.
  intros Ho Hb. unfold __call__. rewrite Hb.
  unfold register_synchronizer, register_mapper, register_backend_adapter.
  rewrite Ho.
  split_and!.
  - intros -> Hacc Honly. eexists. split; [done|].
    rewrite get_synchronizer_resolve.
    eapply resolve_local; [by eapply store_lookup| |done|].
    + simpl. apply elem_of_union. left. by apply elem_of_singleton.
    + by apply only_after_add.
  - intros -> -> Hacc Honly. eexists. split; [done|].
    rewrite get_mapper_resolve.
    eapply resolve_local; [by eapply store_lookup| |done|].
    + simpl. apply elem_of_union. left. by apply elem_of_singleton.
    + by apply (only_after_add
                  (λ proc, Mapper_match proc model direction child_of)).
  - intros -> -> -> Hacc Honly. eexists. split; [done|].
    rewrite get_backend_adapter_resolve.
    eapply resolve_local; [by eapply store_lookup| |done|].
    + simpl. apply elem_of_union. left. by apply elem_of_singleton.
    + by apply only_after_add.
Qed.

(** X28. The decorator registers a class under one kind only.  A subclass of
    [Binder] becomes the binder and enters none of the three sets, even
    when it is a subclass of the other kinds as well; a subclass of
    [Synchronizer] that is no [Binder] enters the synchronizers only. *)
Theorem decorator_first_kind_wins (self : addr) (cls : Cls) (st : State)
    (o : Reference) :
  heap st !! self = Some o →
  (issubclass_Binder cls = true →
   ∃ st' o',
     __call__ self cls st = Return (cls, st') ∧
     heap st' !! self = Some o' ∧
     _binder o' = Some cls ∧
     _synchronizers o' = _synchronizers o ∧
     _mappers o' = _mappers o ∧
     _backend_adapters o' = _backend_adapters o) ∧
  (issubclass_Binder cls = false →
   issubclass_Synchronizer cls = true →
   ∃ st' o',
     __call__ self cls st = Return (cls, st') ∧
     heap st' !! self = Some o' ∧
     _binder o' = _binder o ∧
     _synchronizers o' = {[cls]} ∪ _synchronizers o ∧
     _mappers o' = _mappers o ∧
     _backend_adapters o' = _backend_adapters o).
Proof.
  intros Ho. unfold __call__, register_binder, register_synchronizer.
  rewrite Ho. split.
  - intros ->. eexists _, _. split; [done|].
    split; [by eapply store_lookup|done].
  - intros -> ->. eexists _, _. split; [done|].
    split; [by eapply store_lookup|done].
Qed.

(** X29. A registry starts empty: every lookup in a registry that was just
    created raises [ValueError], and creating it changes no reference
    and no other registry. *)
Theorem new_registry_fresh (st : State) (service_ version_ : option string) :
  let i := (new_registry st).1 in
  let st' := (new_registry st).2 in
  registries st !! i = None ∧
  (∃ R, the_registry st' (Some i) = Some R ∧
        ReferenceRegistry_get_reference (heap st') R service_ version_
        = Raise ValueError) ∧
  heap st' = heap st ∧
  ∀ other, other ≠ Some i → the_registry st' other = the_registry st other.
Proof.
  simpl. split_and!.
  - by apply lookup_ge_None_2.
  - exists ReferenceRegistry_init. split; [by apply list_lookup_middle|].
    apply get_reference_loop_miss. intros r Hr%elem_of_iter_ref.
    by apply elem_of_empty in Hr.
  - done.
  - intros [j|] Hother; simpl; [|done].
    destruct (decide (j < length (registries st))) as [Hlt|Hge].
    + by apply lookup_app_l.
    + rewrite !lookup_ge_None_2; [done|lia|].
      rewrite length_app. simpl.
      assert (j ≠ length (registries st)) by congruence. lia.
Qed.

End Reference.

(** * Concrete runs *)

(** Classes are numbered, models and directions are strings, and the
    sets are visited in the order of [elements]. *)

Lemma parent_fallback_witness :
  fallback_scenario (Cls:=nat) (Model:=string) (Direction:=string)
    (λ cls model _ _, Nat.eqb cls 7 && String.eqb model "res.partner")
    elements "svc" None (Some "2.0"%string) 7
    "res.partner"%string "import"%string None initial_state
  = Return (Some 7).
Proof.
  apply (parent_fallback
           (λ cls model _ _, Nat.eqb cls 7 && String.eqb model "res.partner")
           elements).
  - intros X. reflexivity.
  - reflexivity.
Defined.

Lemma shadowing_witness :
  shadowing_scenario (Cls:=nat) (Model:=string) (Direction:=string)
    (λ _ model _ _, String.eqb model "res.partner")
    elements "svc" None (Some "2.0"%string) 7 8
    "res.partner"%string "import"%string None initial_state
  = Return (Some 8, Some 7).
Proof.
  apply (shadowing (λ _ model _ _, String.eqb model "res.partner") elements).
  - intros X. reflexivity.
  - reflexivity.
  - reflexivity.
Defined.

(** [Reference('svc')] alone, asked for a mapper, a synchronizer and a
    backend adapter. *)
Lemma lookup_miss_without_parent_witness :
  ∃ self st,
    Reference_init (Cls:=nat) (Some "svc"%string) None None None
                   initial_state = Return (self, st) ∧
    get_mapper (Model:=string) (Direction:=string) (λ _ _ _ _, true)
               elements (heap st) self "res.partner"%string
               "import"%string None = Return None ∧
    get_synchronizer (Model:=string) (SynchroType:=string) (λ _ _ _, true)
                     elements (heap st) self "export"%string
                     "res.partner"%string = Return None ∧
    get_backend_adapter (Model:=string) (λ _ _, true)
                        elements (heap st) self "res.partner"%string
    = Return None.
Proof.
  eexists _, _. split; [reflexivity|].
  apply (lookup_miss_without_parent (Cls:=nat)
           (λ _ _ _ _, true) (λ _ _ _, true) (λ _ _, true) elements
           (λ X, reflexivity (elements X))
           _ 0 (mkReference (Some "svc"%string) None None ∅ None ∅ ∅)).
  - reflexivity.
  - reflexivity.
  - intros x Hx. by apply elem_of_empty in Hx.
  - intros x Hx. by apply elem_of_empty in Hx.
  - intros x Hx. by apply elem_of_empty in Hx.
Defined.

(** [Reference('svc').get_binder('res.partner')] does not return
    [None]. *)
Lemma get_binder_root_not_None :
  ∃ self st,
    Reference_init (Cls:=nat) (Some "svc"%string) None None None
                   initial_state = Return (self, st) ∧
    get_binder (λ _, true) (heap st) self "res.partner"%string
    = Raise UnboundLocalError ∧
    get_binder (λ _, true) (heap st) self "res.partner"%string
    ≠ Return None.
Proof. eexists _, _. split; [reflexivity|]. by split. Qed.

Lemma get_binder_miss_without_parent_witness :
  ∃ e, get_binder (Cls:=nat) (λ _, true)
         [mkReference (Some "svc"%string) None None ∅ None ∅ ∅] 0
         "res.partner"%string = Raise e.
Proof.
  apply (get_binder_miss_without_parent (Cls:=nat) (λ _, true) _ 0
           (mkReference (Some "svc"%string) None None ∅ None ∅ ∅));
    reflexivity.
Defined.

(** [Reference(service='', version='1.7')] in a fresh interpreter, then
    [get_reference('', '1.7')]: whatever the order of the loop, the
    lookup does not return the reference. *)
Lemma get_reference_empty_service :
  ∃ self st,
    references (REFERENCES (initial_state (Cls:=nat))) = ∅ ∧
    Reference_init (Cls:=nat) (Some ""%string) (Some "1.7"%string)
                   None None initial_state = Return (self, st) ∧
    ∀ iter_ref : gset nat → list nat,
      (∀ X, iter_ref X ≡ₚ elements X) →
      get_reference iter_ref st (Some ""%string) (Some "1.7"%string)
      = Raise AttributeError.
Proof.
  eexists _, _. split; [reflexivity|]. split; [reflexivity|].
  intros iter_ref Hiter.
  unfold get_reference, ReferenceRegistry_get_reference. simpl.
  assert (Hl : iter_ref ({[0]} ∪ ∅) = [0]).
  { apply Permutation_singleton_r. rewrite Hiter. by vm_compute. }
  rewrite Hl. reflexivity.
Qed.

(** A registry that already holds [Reference('magento', '1.6')]. *)
Lemma get_reference_after_init_witness :
  ∃ self st' R',
    Reference_init (Cls:=nat) (Some "magento"%string) (Some "1.7"%string)
      None None
      (mkState [mkReference (Some "magento"%string) (Some "1.6"%string)
                            None ∅ None ∅ ∅]
               (mkReferenceRegistry {[0]}) [])
    = Return (self, st') ∧
    the_registry st' None = Some R' ∧
    ReferenceRegistry_get_reference elements (heap st') R'
      (Some "magento"%string) (Some "1.7"%string) = Return self ∧
    ((None : option nat) = None →
     get_reference elements st' (Some "magento"%string)
                   (Some "1.7"%string) = Return self).
Proof.
  apply (get_reference_after_init (Cls:=nat) elements
           (λ X, reflexivity (elements X))
           "magento" (Some "1.7"%string) None None _
           (mkReferenceRegistry {[0]})).
  - discriminate.
  - reflexivity.
  - intros other Hother. simpl in Hother.
    apply elem_of_singleton in Hother. subst other. reflexivity.
Defined.

Lemma Reference_init_outcome_witness :
  Reference_init (Cls:=nat) None (Some "1.7"%string) None None
                 initial_state = Raise ValueError ∧
  ∃ self st',
    Reference_init (Cls:=nat) None (Some "1.7"%string) (Some 0) None
                   initial_state = Return (self, st') ∧
    heap st' !! self
    = Some (mkReference None (Some "1.7"%string) (Some 0) ∅ None ∅ ∅).
Proof.
  split.
  - apply (Reference_init_outcome (Cls:=nat) None (Some "1.7"%string)
             None None initial_state); [by eexists | by split].
  - apply (Reference_init_outcome (Cls:=nat) None (Some "1.7"%string)
             (Some 0) None initial_state); [by eexists|].
    right. by eexists.
Defined.

(** [Reference('')] decorating a class that is none of the four
    kinds. *)
Lemma decorator_on_unnamed_reference :
  ∃ self st,
    Reference_init (Cls:=nat) (Some ""%string) None None None
                   initial_state = Return (self, st) ∧
    __call__ (λ _, false) (λ _, false) (λ _, false) (λ _, false) self 5 st
    = Raise AttributeError.
Proof. eexists _, _. split; reflexivity. Qed.

Lemma decorator_classification_witness :
  let st := mkState [mkReference (Some "magento"%string) None None
                                 ∅ None ∅ ∅]
                    (mkReferenceRegistry {[0]}) [] in
  (∃ st' o',
     __call__ (Cls:=nat) (λ cls, Nat.eqb cls 1) (λ _, false)
              (λ _, false) (λ _, false) 0 1 st = Return (1, st') ∧
     heap st' !! 0 = Some o' ∧ _binder o' = Some 1 ∧
     ((λ _ : nat, true) 1 = true →
      ∀ model : string,
        get_binder (λ _, true) (heap st') 0 model = Return (Some 1))) ∧
  __call__ (Cls:=nat) (λ cls, Nat.eqb cls 1) (λ _, false)
           (λ _, false) (λ _, false) 0 5 st = Raise TypeError.
Proof.
  intros st.
  destruct (decorator_classification (Cls:=nat) (Model:=string)
              (λ cls, Nat.eqb cls 1) (λ _, false) (λ _, false)
              (λ _, false) (λ _, true) 0 1 st) as (Hbinder & _);
    [by eexists|].
  destruct (decorator_classification (Cls:=nat) (Model:=string)
              (λ cls, Nat.eqb cls 1) (λ _, false) (λ _, false)
              (λ _, false) (λ _, true) 0 5 st) as (_ & Hnone);
    [by eexists|].
  split.
  - apply Hbinder. reflexivity.
  - apply Hnone; try reflexivity. exists "magento"%string. reflexivity.
Defined.

(** A subclass of [Binder] that is false as a value, put on
    [Reference('svc')] with the decorator: it is stored, and
    [get_binder] does not return it. *)
Example decorator_on_falsy_binder :
  ∃ self st st',
    Reference_init (Cls:=nat) (Some "svc"%string) None None None
                   initial_state = Return (self, st) ∧
    __call__ (λ _, true) (λ _, false) (λ _, false) (λ _, false) self 1 st
    = Return (1, st') ∧
    get_binder (λ _, false) (heap st') self "res.partner"%string
    = Raise UnboundLocalError.
Proof. eexists _, _, _. split; [reflexivity|]. split; reflexivity. Qed.

Lemma register_unregister_mapper_witness :
  let st := mkState [mkReference (Some "magento"%string) None None
                                 ∅ None ∅ ∅]
                    (mkReferenceRegistry {[0]}) [] in
  ∃ st1 st2 o2,
    register_mapper (Cls:=nat) 0 7 st = Return st1 ∧
    unregister_mapper 0 7 st1 = Return st2 ∧
    heap st2 !! 0 = Some o2 ∧
    (7 ∉ _mappers o2) ∧
    ∃ e, unregister_mapper 0 7 st2 = Raise e ∧ is_LookupError e = true.
Proof.
  intros st. apply (register_unregister_mapper (Cls:=nat) 0 7 st).
  by eexists.
Defined.

Lemma register_frame_witness :
  let parent_ := mkReference (Some "magento"%string) None None
                             ∅ None ∅ ∅ in
  let child := mkReference None (Some "1.7"%string) (Some 0)
                           ∅ (Some 3) ∅ ∅ in
  let st := mkState [parent_; child] (mkReferenceRegistry {[0; 1]}) [] in
  ∃ st' o',
    register_mapper (Cls:=nat) 1 7 st = Return st' ∧
    heap st' !! 1 = Some o' ∧
    _mappers o' = {[7]} ∪ _mappers child ∧
    _binder o' = _binder child ∧
    _synchronizers o' = _synchronizers child ∧
    _backend_adapters o' = _backend_adapters child ∧
    _service o' = _service child ∧ version o' = version child ∧
    parent o' = parent child ∧ same_elsewhere 1 st st'.
Proof.
  intros parent_ child st.
  apply (register_frame (Cls:=nat) 1 7 st child). reflexivity.
Defined.

Lemma empty_service_witness :
  ∃ self st',
    Reference_init (Cls:=nat) (Some ""%string) (Some "1.7"%string)
                   None None initial_state = Return (self, st') ∧
    heap st' !! self
    = Some (mkReference (Some ""%string) (Some "1.7"%string)
                        None ∅ None ∅ ∅) ∧
    ∀ (h : list (@Reference nat _ _)) o,
      h !! self = Some o → _service o = Some ""%string → parent o = None →
      service h self = Raise AttributeError ∧
      (∀ service_ version_,
         match_ h self service_ version_ = Raise AttributeError) ∧
      (∀ R service_ version_ l1 l2,
         elements (references R) = l1 ++ self :: l2 →
         Forall (λ other, match_ h other service_ version_ = Return false)
                l1 →
         ReferenceRegistry_get_reference elements h R service_ version_
         = Raise AttributeError).
Proof.
  apply (empty_service_accepted_then_unusable (Cls:=nat) elements
           (Some "1.7"%string) None initial_state).
  by eexists.
Defined.

(** Below [Reference('svc')], the child built with
    [Reference(parent=parent, version='2.0')] does raise on a miss. *)
Example lookup_miss_below_parent :
  let h := [mkReference (Some "svc"%string) None None ∅ None ∅ ∅;
            mkReference None (Some "2.0"%string) (Some 0) ∅ None ∅ ∅] in
  get_mapper (Cls:=nat) (Model:=string) (Direction:=string)
             (λ _ _ _ _, true) elements h 1
             "res.partner"%string "import"%string None
  = Raise ValueError ∧
  get_mapper (Cls:=nat) (Model:=string) (Direction:=string)
             (λ _ _ _ _, true) elements h 0
             "res.partner"%string "import"%string None
  = Return None.
Proof. by vm_compute. Qed.

(** A registry holding [Reference('')] and [Reference('magento', '1.7')]:
    the lookup of [('magento', '1.7')] depends on which of the two the
    loop meets first. *)
Example get_reference_meets_unnamed :
  let h := [mkReference (Cls:=nat) (Some ""%string) None None ∅ None ∅ ∅;
            mkReference (Some "magento"%string) (Some "1.7"%string) None
                        ∅ None ∅ ∅] in
  get_reference_loop h [0; 1] (Some "magento"%string) (Some "1.7"%string)
  = Raise AttributeError ∧
  get_reference_loop h [1; 0] (Some "magento"%string) (Some "1.7"%string)
  = Return 1.
Proof. by vm_compute. Qed.

(** * Concrete runs of the further properties *)

(** Stores of two or three references are checked address by address. *)
Ltac two_references :=
  let self := fresh "self" in
  intros self; intros;
  repeat (destruct self as [|self]; simplify_eq/=; try lia).

Lemma get_reference_unmatched_witness :
  ReferenceRegistry_get_reference (Cls:=nat) elements
    [mkReference (Some "magento"%string) (Some "1.6"%string) None
                 ∅ None ∅ ∅]
    (mkReferenceRegistry {[0]})
    (Some "magento"%string) (Some "1.7"%string)
  = Raise ValueError.
Proof.
  apply (get_reference_unmatched (Cls:=nat) elements
           (λ X, reflexivity (elements X))).
  intros r Hr. simpl in Hr. apply elem_of_singleton in Hr.
  subst r. reflexivity.
Defined.

Lemma get_reference_sound_witness :
  0 ∈ references (mkReferenceRegistry {[0]}) ∧
  ∃ o s,
    [mkReference (Cls:=nat) (Some "magento"%string) (Some "1.7"%string)
                 None ∅ None ∅ ∅] !! 0 = Some o ∧
    service [mkReference (Cls:=nat) (Some "magento"%string)
                         (Some "1.7"%string) None ∅ None ∅ ∅] 0
    = Return s ∧
    Some "magento"%string = Some s ∧ version o = Some "1.7"%string.
Proof.
  apply (get_reference_sound (Cls:=nat) elements
           (λ X, reflexivity (elements X))).
  by vm_compute.
Defined.

Lemma Reference_init_frame_witness :
  let st := mkState
              [mkReference (Cls:=nat) (Some "magento"%string) None None
                           ∅ None ∅ ∅]
              (mkReferenceRegistry {[0]}) [] in
  ∃ st',
    heap st !! 1 = None ∧
    heap st' !! 1
    = Some (mkReference None (Some "1.7"%string) (Some 0) ∅ None ∅ ∅) ∧
    (∀ a, a ≠ 1 → heap st' !! a = heap st !! a) ∧
    (∃ R R', the_registry st None = Some R ∧
             the_registry st' None = Some R' ∧
             references R' = {[1]} ∪ references R) ∧
    (∀ other, other ≠ None →
              the_registry st' other = the_registry st other).
Proof.
  intros st. eexists.
  apply (Reference_init_frame (Cls:=nat) None (Some "1.7"%string)
           (Some 0) None st).
  reflexivity.
Defined.

Lemma service_never_empty_witness :
  ∃ s,
    service (Cls:=nat)
      [mkReference (Some "magento"%string) None None ∅ None ∅ ∅;
       mkReference (Some ""%string) (Some "1.7"%string) (Some 0)
                   ∅ None ∅ ∅] 1 = Return s ∧
    s ≠ ""%string.
Proof.
  eexists. split; [reflexivity|].
  apply (service_never_empty (Cls:=nat)
           [mkReference (Some "magento"%string) None None ∅ None ∅ ∅;
            mkReference (Some ""%string) (Some "1.7"%string) (Some 0)
                        ∅ None ∅ ∅] 1).
  reflexivity.
Defined.

Lemma service_inherited_witness :
  let h := [mkReference (Cls:=nat) (Some "magento"%string) None None
                        ∅ None ∅ ∅;
            mkReference None (Some "1.7"%string) (Some 0) ∅ None ∅ ∅] in
  service h 1 = service h 0.
Proof.
  intros h.
  apply (service_inherited (Cls:=nat) h 1 0
           (mkReference None (Some "1.7"%string) (Some 0) ∅ None ∅ ∅));
    [two_references | reflexivity..].
Defined.

Lemma child_prints_parent_service_witness :
  let o := mkReference (Cls:=nat) None (Some "1.7"%string) (Some 0)
                       ∅ None ∅ ∅ in
  let h := [mkReference (Some "magento"%string) None None ∅ None ∅ ∅; o] in
  (∀ v, version o = Some v → v ≠ ""%string →
     __str__ h 1
     = Return ("Reference('" ++ "magento" ++ "', '" ++ v ++ "')")%string ∧
     __repr__ h 1
     = Return ("<Reference '" ++ "magento" ++ "', '" ++ v ++ "'>")%string) ∧
  (truthy (version o) = false →
     __str__ h 1 = Return ("Reference('" ++ "magento" ++ "')>")%string ∧
     __repr__ h 1 = Return ("<Reference '" ++ "magento" ++ "'>")%string).
Proof.
  intros o h.
  apply (child_prints_parent_service (Cls:=nat) h 1 0 o "magento");
    [two_references | reflexivity..].
Defined.

(** Three levels: no binder at the bottom, the class 0, false as a
    value, in the middle, the class 3 at the top. *)
Lemma get_binder_nearest_witness :
  let truth := λ c : nat, negb (Nat.eqb c 0) in
  let top := mkReference (Cls:=nat) (Some "magento"%string) None None
                         ∅ (Some 3) ∅ ∅ in
  let h := [top;
            mkReference None (Some "1"%string) (Some 0) ∅ (Some 0) ∅ ∅;
            mkReference None (Some "1.7"%string) (Some 1) ∅ None ∅ ∅] in
  (∀ b, _binder top = Some b → truth b = true →
        get_binder truth h 2 "res.partner"%string = Return (Some b)) ∧
  (binder_truth truth (_binder top) = false → parent top = None →
   get_binder truth h 2 "res.partner"%string = Raise UnboundLocalError).
Proof.
  intros truth top h.
  apply (get_binder_nearest (Cls:=nat) truth h 2 0 top
           "res.partner"%string).
  - two_references.
  - eapply climbs_step; [reflexivity..|].
    eapply climbs_step; [reflexivity..|]. apply climbs_here.
  - reflexivity.
Defined.

Lemma get_binder_outcomes_witness :
  let h := [mkReference (Cls:=nat) (Some "magento"%string) None None
                        ∅ None ∅ ∅;
            mkReference None (Some "1.7"%string) (Some 0) ∅ None ∅ ∅] in
  (∃ b, get_binder (λ _, true) h 1 "res.partner"%string
        = Return (Some b)) ∨
  get_binder (λ _, true) h 1 "res.partner"%string
  = Raise UnboundLocalError.
Proof.
  intros h.
  apply (get_binder_outcomes (Cls:=nat) (λ _, true) h 1
           "res.partner"%string);
    [two_references | simpl; lia].
Defined.

(** Three levels, the mapper 7 on the topmost one. *)
Lemma lookup_nearest_witness :
  let top := mkReference (Cls:=nat) (Some "magento"%string) None None
                         {[7]} None ∅ ∅ in
  let h := [top;
            mkReference None (Some "1"%string) (Some 0) ∅ None ∅ ∅;
            mkReference None (Some "1.7"%string) (Some 1) ∅ None ∅ ∅] in
  get_mapper (Model:=string) (Direction:=string)
             (λ _ model _ _, String.eqb model "res.partner") elements
             h 2 "res.partner"%string "import"%string None
  = Return (Some 7).
Proof.
  intros top h.
  apply (lookup_nearest (Cls:=nat) (SynchroType:=string)
           (λ _ model _ _, String.eqb model "res.partner")
           (λ _ _ _, false) (λ _ _, false) elements
           (λ X, reflexivity (elements X))
           h 2 0 top 7 "export"%string).
  - two_references.
  - reflexivity.
  - eapply climbs_step;
      [reflexivity | intros x Hx; by apply elem_of_empty in Hx
      | reflexivity |].
    eapply climbs_step;
      [reflexivity | intros x Hx; by apply elem_of_empty in Hx
      | reflexivity |].
    apply climbs_here.
  - by apply elem_of_singleton.
  - reflexivity.
  - intros x Hx _. subst top. simpl in Hx.
    by apply elem_of_singleton in Hx.
Defined.

Lemma lookup_sound_witness :
  let h := [mkReference (Cls:=nat) (Some "magento"%string) None None
                        {[7]} None ∅ ∅;
            mkReference None (Some "1.7"%string) (Some 0) ∅ None ∅ ∅] in
  ∃ a oa,
    climbs (λ o, ∀ x, x ∈ _mappers o →
                      String.eqb "res.partner" "res.partner" = false)
           h 1 a ∧
    h !! a = Some oa ∧ 7 ∈ _mappers oa ∧
    String.eqb "res.partner" "res.partner" = true.
Proof.
  intros h.
  apply (lookup_sound (Cls:=nat) (SynchroType:=string) (Direction:=string)
           (λ _ model _ _, String.eqb model "res.partner")
           (λ _ _ _, false) (λ _ _, false) elements
           (λ X, reflexivity (elements X))
           h 1 7 "export"%string "res.partner"%string "import"%string None).
  by vm_compute.
Defined.

Lemma lookup_None_iff_witness :
  let o := mkReference (Cls:=nat) (Some "magento"%string) None None
                       {[7]} None ∅ ∅ in
  get_mapper (Model:=string) (Direction:=string)
             (λ _ model _ _, String.eqb model "res.partner") elements
             [o] 0 "sale.order"%string "import"%string None
  = Return None ↔
  parent o = None ∧
  ∀ x, x ∈ _mappers o → String.eqb "sale.order" "res.partner" = false.
Proof.
  intros o.
  apply (lookup_None_iff (Cls:=nat) (SynchroType:=string)
           (λ _ model _ _, String.eqb model "res.partner")
           (λ _ _ _, false) (λ _ _, false) elements
           (λ X, reflexivity (elements X))
           [o] 0 o "export"%string "sale.order"%string "import"%string None).
  reflexivity.
Defined.

(** [Reference('')] and a child of it that has no service either. *)
Lemma lookup_miss_unnamed_witness :
  let h := [mkReference (Cls:=nat) (Some ""%string) None None ∅ None ∅ ∅;
            mkReference None (Some "1.7"%string) (Some 0) ∅ None ∅ ∅] in
  get_mapper (Model:=string) (Direction:=string) (λ _ _ _ _, true)
             elements h 1 "res.partner"%string "import"%string None
  = Raise AttributeError.
Proof.
  intros h.
  apply (lookup_miss_unnamed (Cls:=nat) (SynchroType:=string)
           (λ _ _ _ _, true) (λ _ _ _, true) (λ _ _, true) elements
           (λ X, reflexivity (elements X))
           h 1 0
           (mkReference None (Some "1.7"%string) (Some 0) ∅ None ∅ ∅)
           (mkReference (Some ""%string) None None ∅ None ∅ ∅)
           "export"%string "res.partner"%string "import"%string None);
    try reflexivity; [lia|].
  intros x Hx. apply elem_of_union in Hx as [Hx|Hx];
    by apply elem_of_empty in Hx.
Defined.

Lemma lookup_miss_with_parent_witness :
  let h := [mkReference (Cls:=nat) (Some "magento"%string) None None
                        ∅ None ∅ ∅;
            mkReference None (Some "1.7"%string) (Some 0) ∅ None ∅ ∅] in
  get_mapper (Model:=string) (Direction:=string) (λ _ _ _ _, true)
             elements h 1 "res.partner"%string "import"%string None
  = Raise ValueError.
Proof.
  intros h.
  apply (lookup_miss_with_parent (Cls:=nat) (SynchroType:=string)
           (λ _ _ _ _, true) (λ _ _ _, true) (λ _ _, true) elements
           (λ X, reflexivity (elements X))
           h 1
           (mkReference None (Some "1.7"%string) (Some 0) ∅ None ∅ ∅)
           "export"%string "res.partner"%string "import"%string None).
  - intros self Hself. destruct self as [|[|self]];
      [by exists "magento"%string..|simpl in Hself; lia].
  - reflexivity.
  - by eexists.
  - eapply exhausted_child;
      [reflexivity | reflexivity | lia
      | intros x Hx; by apply elem_of_empty in Hx |].
    eapply exhausted_root;
      [reflexivity | reflexivity
      | intros x Hx; by apply elem_of_empty in Hx].
Defined.

Lemma register_unregister_restores_witness :
  let st := mkState
              [mkReference (Cls:=nat) (Some "magento"%string) None None
                           {[7]} None ∅ ∅]
              (mkReferenceRegistry {[0]}) [] in
  (register_mapper 0 8 st ≫= unregister_mapper 0 8) = Return st ∧
  (unregister_mapper 0 7 st ≫= register_mapper 0 7) = Return st.
Proof.
  intros st.
  destruct (register_unregister_restores (Cls:=nat) 0 8 st
              (mkReference (Some "magento"%string) None None
                           {[7]} None ∅ ∅) eq_refl) as (Hadd & _).
  destruct (register_unregister_restores (Cls:=nat) 0 7 st
              (mkReference (Some "magento"%string) None None
                           {[7]} None ∅ ∅) eq_refl) as (_ & Hremove & _).
  split.
  - apply Hadd. simpl. intros Hin. by apply elem_of_singleton in Hin.
  - apply Hremove. by apply elem_of_singleton.
Defined.

Lemma unregister_outcome_witness :
  let o := mkReference (Cls:=nat) (Some "magento"%string) None None
                       ∅ None {[7]} ∅ in
  let st := mkState [o] (mkReferenceRegistry {[0]}) [] in
  (∃ st' o',
     unregister_synchronizer 0 7 st = Return st' ∧
     heap st' !! 0 = Some o' ∧
     _synchronizers o' = _synchronizers o ∖ {[7]} ∧
     _binder o' = _binder o ∧ _mappers o' = _mappers o ∧
     _backend_adapters o' = _backend_adapters o ∧
     _service o' = _service o ∧ version o' = version o ∧
     parent o' = parent o ∧ same_elsewhere 0 st st') ∧
  unregister_backend_adapter 0 7 st = Raise KeyError.
Proof.
  intros o st.
  destruct (unregister_outcome (Cls:=nat) 0 7 st o eq_refl)
    as (_ & _ & Hsync & _ & _ & Hadapter).
  split.
  - apply Hsync. by apply elem_of_singleton.
  - apply Hadapter. intros Hin. by apply elem_of_empty in Hin.
Defined.

(** The class 4 is true as a value, the class 0 is not. *)
Lemma register_binder_overwrites_witness :
  let truth := λ c : nat, negb (Nat.eqb c 0) in
  let o := mkReference (Cls:=nat) (Some "magento"%string) None None
                       ∅ None ∅ ∅ in
  let st := mkState [o] (mkReferenceRegistry {[0]}) [] in
  (∃ st2,
     (register_binder 0 3 st ≫= register_binder 0 4) = Return st2 ∧
     register_binder 0 4 st = Return st2 ∧
     (truth 4 = true →
      ∀ model : string,
        get_binder truth (heap st2) 0 model = Return (Some 4)) ∧
     (truth 4 = false → parent o = None →
      ∀ model : string,
        get_binder truth (heap st2) 0 model = Raise UnboundLocalError)) ∧
  (∃ st2,
     (register_binder 0 3 st ≫= register_binder 0 0) = Return st2 ∧
     register_binder 0 0 st = Return st2 ∧
     (truth 0 = true →
      ∀ model : string,
        get_binder truth (heap st2) 0 model = Return (Some 0)) ∧
     (truth 0 = false → parent o = None →
      ∀ model : string,
        get_binder truth (heap st2) 0 model = Raise UnboundLocalError)).
Proof.
  intros truth o st. split.
  - apply (register_binder_overwrites (Cls:=nat) (Model:=string) truth
             0 3 4 st o).
    reflexivity.
  - apply (register_binder_overwrites (Cls:=nat) (Model:=string) truth
             0 3 0 st o).
    reflexivity.
Defined.

Lemma register_binder_frame_witness :
  let o := mkReference (Cls:=nat) (Some "magento"%string) None None
                       {[7]} (Some 3) ∅ ∅ in
  let st := mkState [o] (mkReferenceRegistry {[0]}) [] in
  ∃ st' o',
    register_binder 0 4 st = Return st' ∧
    heap st' !! 0 = Some o' ∧
    _binder o' = Some 4 ∧
    _mappers o' = _mappers o ∧ _synchronizers o' = _synchronizers o ∧
    _backend_adapters o' = _backend_adapters o ∧
    _service o' = _service o ∧ version o' = version o ∧
    parent o' = parent o ∧ same_elsewhere 0 st st'.
Proof.
  intros o st. apply (register_binder_frame (Cls:=nat) 0 4 st o).
  reflexivity.
Defined.

(** The decorator, on a class that is a mapper only. *)
Lemma registration_keeps_identity_witness :
  let o := mkReference (Cls:=nat) None (Some "1.7"%string) (Some 0)
                       ∅ None ∅ ∅ in
  let st := mkState
              [mkReference (Some "magento"%string) None None ∅ None ∅ ∅; o]
              (mkReferenceRegistry {[0; 1]}) [] in
  ∃ st',
    __call__ (λ _, false) (λ _, false) (λ _, true) (λ _, false) 1 7 st
    = Return (7, st') ∧
    ∃ o0 o', heap st !! 1 = Some o0 ∧ heap st' !! 1 = Some o' ∧
             _service o' = _service o0 ∧ version o' = version o0 ∧
             parent o' = parent o0 ∧ same_elsewhere 1 st st'.
Proof.
  intros o st. eexists. split; [reflexivity|].
  apply (registration_keeps_identity (Cls:=nat)
           (λ _, false) (λ _, false) (λ _, true) (λ _, false) 1 7 st).
  do 7 right. reflexivity.
Defined.

Lemma registration_keeps_services_witness :
  let st := mkState
              [mkReference (Cls:=nat) (Some "magento"%string) None None
                           ∅ None ∅ ∅;
               mkReference None (Some "1.7"%string) (Some 0) ∅ None ∅ ∅]
              (mkReferenceRegistry {[0; 1]}) [] in
  ∃ st',
    register_mapper 0 7 st = Return st' ∧
    (∀ r, service (heap st') r = service (heap st) r) ∧
    (∀ R service_ version_,
       ReferenceRegistry_get_reference elements (heap st') R
                                       service_ version_
       = ReferenceRegistry_get_reference elements (heap st) R
                                         service_ version_).
Proof.
  intros st. eexists. split; [reflexivity|].
  apply (registration_keeps_services (Cls:=nat)
           (λ _, false) (λ _, false) (λ _, true) (λ _, false) elements
           0 7 st).
  do 2 right. left. reflexivity.
Defined.

Lemma registration_independent_witness :
  let st := mkState
              [mkReference (Cls:=nat) (Some "magento"%string) None None
                           ∅ (Some 3) {[5]} ∅;
               mkReference None (Some "1.7"%string) (Some 0) ∅ None ∅ ∅]
              (mkReferenceRegistry {[0; 1]}) [] in
  ∃ st',
    register_mapper 0 7 st = Return st' ∧
    get_synchronizer (Model:=string) (SynchroType:=string)
                     (λ _ _ _, true) elements (heap st') 1
                     "export"%string "res.partner"%string
    = get_synchronizer (λ _ _ _, true) elements (heap st) 1
                       "export"%string "res.partner"%string ∧
    get_backend_adapter (Model:=string) (λ _ _, true) elements
                        (heap st') 1 "res.partner"%string
    = get_backend_adapter (λ _ _, true) elements (heap st) 1
                          "res.partner"%string ∧
    get_binder (λ _, true) (heap st') 1 "res.partner"%string
    = get_binder (λ _, true) (heap st) 1 "res.partner"%string.
Proof.
  intros st. eexists. split; [reflexivity|].
  apply (registration_independent (Cls:=nat) (Direction:=string)
           (λ _ _ _ _, true) (λ _ _ _, true) (λ _ _, true) (λ _, true)
           elements
           0 7 st _ 1 "export"%string "res.partner"%string
           "import"%string None).
  left. reflexivity.
Defined.

(** A mapper registered on the child, seen from the parent. *)
Lemma registration_invisible_to_earlier_witness :
  let st := mkState
              [mkReference (Cls:=nat) (Some "magento"%string) None None
                           ∅ None ∅ ∅;
               mkReference None (Some "1.7"%string) (Some 0) ∅ None ∅ ∅]
              (mkReferenceRegistry {[0; 1]}) [] in
  ∃ st',
    register_mapper 1 7 st = Return st' ∧
    get_mapper (Model:=string) (Direction:=string) (λ _ _ _ _, true)
               elements (heap st') 0 "res.partner"%string
               "import"%string None
    = get_mapper (λ _ _ _ _, true) elements (heap st) 0
                 "res.partner"%string "import"%string None.
Proof.
  intros st. eexists. split; [reflexivity|].
  apply (registration_invisible_to_earlier (Cls:=nat) (SynchroType:=string)
           (λ _, false) (λ _, false) (λ _, true) (λ _, false)
           (λ _ _ _ _, true) (λ _ _ _, true) (λ _ _, true) (λ _, true)
           elements
           1 7 st _ 0 "export"%string "res.partner"%string
           "import"%string None).
  - two_references.
  - do 2 right. left. reflexivity.
  - lia.
Defined.

Lemma construction_preserves_lookups_witness :
  let st := mkState
              [mkReference (Cls:=nat) (Some "magento"%string) None None
                           {[7]} None ∅ ∅]
              (mkReferenceRegistry {[0]}) [] in
  ∃ st',
    Reference_init None (Some "1.7"%string) (Some 0) None st
    = Return (1, st') ∧
    service (heap st') 0 = service (heap st) 0 ∧
    get_mapper (Model:=string) (Direction:=string) (λ _ _ _ _, true)
               elements (heap st') 0 "res.partner"%string
               "import"%string None
    = get_mapper (λ _ _ _ _, true) elements (heap st) 0
                 "res.partner"%string "import"%string None.
Proof.
  intros st. eexists. split; [reflexivity|].
  match goal with
  | |- service (heap ?st') 0 = _ ∧ _ =>
    destruct (construction_preserves_lookups (Cls:=nat)
                (SynchroType:=string)
                (λ _ _ _ _, true) (λ _ _ _, true) (λ _ _, true)
                (λ _, true) elements
                None (Some "1.7"%string) (Some 0) None st st' 1 0
                "export"%string "res.partner"%string
                "import"%string None) as (Hs & Hm & _);
      [two_references | reflexivity | lia |]
  end.
  split; [exact Hs | exact Hm].
Defined.

Lemma calls_end_witness :
  let st := mkState
              [mkReference (Cls:=nat) (Some "magento"%string) None None
                           ∅ None ∅ ∅;
               mkReference None (Some "1.7"%string) (Some 0) ∅ None ∅ ∅]
              (mkReferenceRegistry {[0; 1]}) [] in
  service (heap st) 1 ≠ Stuck ∧
  get_mapper (Model:=string) (Direction:=string) (λ _ _ _ _, true)
             elements (heap st) 1 "res.partner"%string "import"%string
             None ≠ Stuck ∧
  get_reference elements st (Some "magento"%string) (Some "1.7"%string)
  ≠ Stuck.
Proof.
  intros st.
  destruct (calls_end (Cls:=nat) (Model:=string) (Direction:=string)
              (SynchroType:=string)
              (λ _ _ _ _, true) (λ _ _ _, true) (λ _ _, true)
              (λ _, true) elements elements
              (λ X, reflexivity (elements X)) st) as (Hrefs & Hregs).
  - split_and!.
    + two_references.
    + intros r Hr. simpl in *.
      apply elem_of_union in Hr as [Hr|Hr];
        apply elem_of_singleton in Hr; subst r; lia.
    + intros i R r Hi. destruct i; discriminate.
  - destruct (Hrefs 1) as (Hservice & _ & _ & Hlookups); [simpl; lia|].
    destruct (Hlookups "export"%string "res.partner"%string
                       "import"%string None) as (Hmapper & _).
    split_and!; [exact Hservice | exact Hmapper |].
    apply (Hregs None). reflexivity.
Defined.

(** A reference built against a registry of its own, seen from
    [REFERENCES]. *)
Lemma construction_isolated_witness :
  let st := mkState
              [mkReference (Cls:=nat) (Some "magento"%string)
                           (Some "1.7"%string) None ∅ None ∅ ∅]
              (mkReferenceRegistry {[0]})
              [mkReferenceRegistry ∅] in
  ∃ self st',
    Reference_init (Some "magento"%string) (Some "1.7"%string) None
                   (Some 0) st = Return (self, st') ∧
    the_registry st' None = Some (REFERENCES st) ∧
    ∀ service' version',
      ReferenceRegistry_get_reference elements (heap st') (REFERENCES st)
                                      service' version'
      = ReferenceRegistry_get_reference elements (heap st) (REFERENCES st)
                                        service' version'.
Proof.
  intros st. eexists _, _. split; [reflexivity|].
  eapply (construction_isolated (Cls:=nat) elements
            (λ X, reflexivity (elements X))
            (Some "magento"%string) (Some "1.7"%string) None (Some 0)
            st _ _ None (REFERENCES st)).
  - split_and!.
    + two_references.
    + intros r Hr. simpl in *. apply elem_of_singleton in Hr. subst r. lia.
    + intros i R r Hi Hr. destruct i as [|i]; simplify_eq/=.
      by apply elem_of_empty in Hr.
  - reflexivity.
  - discriminate.
  - reflexivity.
Defined.

(** A class that is a mapper and a backend adapter is registered as a
    mapper. *)
Lemma decorator_then_lookup_witness :
  let st := mkState
              [mkReference (Cls:=nat) (Some "magento"%string) None None
                           ∅ None ∅ ∅]
              (mkReferenceRegistry {[0]}) [] in
  ∃ st',
    __call__ (Cls:=nat) (λ _, false) (λ _, false) (λ _, true) (λ _, true)
             0 7 st = Return (7, st') ∧
    get_mapper (Model:=string) (Direction:=string)
               (λ _ model _ _, String.eqb model "res.partner") elements
               (heap st') 0 "res.partner"%string "import"%string None
    = Return (Some 7).
Proof.
  intros st.
  destruct (decorator_then_lookup (Cls:=nat) (SynchroType:=string)
              (λ _, false) (λ _, false) (λ _, true) (λ _, true)
              (λ _ model _ _, String.eqb model "res.partner")
              (λ _ _ _, false) (λ _ _, false) elements
              (λ X, reflexivity (elements X))
              0 7 st
              (mkReference (Some "magento"%string) None None ∅ None ∅ ∅)
              "export"%string "res.partner"%string "import"%string None
              eq_refl eq_refl) as (_ & Hmapper & _).
  apply Hmapper; try reflexivity.
  intros x Hx. by apply elem_of_empty in Hx.
Defined.

(** A class that is a binder and a mapper at once. *)
Lemma decorator_first_kind_wins_witness :
  let o := mkReference (Cls:=nat) (Some "magento"%string) None None
                       ∅ None ∅ ∅ in
  let st := mkState [o] (mkReferenceRegistry {[0]}) [] in
  ∃ st' o',
    __call__ (Cls:=nat) (λ _, true) (λ _, false) (λ _, true) (λ _, false)
             0 7 st = Return (7, st') ∧
    heap st' !! 0 = Some o' ∧
    _binder o' = Some 7 ∧
    _synchronizers o' = _synchronizers o ∧
    _mappers o' = _mappers o ∧
    _backend_adapters o' = _backend_adapters o.
Proof.
  intros o st.
  destruct (decorator_first_kind_wins (Cls:=nat)
              (λ _, true) (λ _, false) (λ _, true) (λ _, false)
              0 7 st o eq_refl) as (Hbinder & _).
  apply Hbinder. reflexivity.
Defined.

Lemma new_registry_fresh_witness :
  let st := mkState
              [mkReference (Cls:=nat) (Some "magento"%string)
                           (Some "1.7"%string) None ∅ None ∅ ∅]
              (mkReferenceRegistry {[0]}) [] in
  let st' := (new_registry st).2 in
  registries st !! 0 = None ∧
  (∃ R, the_registry st' (Some 0) = Some R ∧
        ReferenceRegistry_get_reference elements (heap st') R
          (Some "magento"%string) (Some "1.7"%string)
        = Raise ValueError) ∧
  heap st' = heap st ∧
  ∀ other, other ≠ Some 0 → the_registry st' other = the_registry st other.
Proof.
  intros st st'.
  apply (new_registry_fresh (Cls:=nat) elements
           (λ X, reflexivity (elements X)) st
           (Some "magento"%string) (Some "1.7"%string)).
Defined.
